(** * Sparticle: one particle of the Sparticles effect (src/JS/sparticle.js)

    A shallow embedding of the particle's lifecycle (construction, setup,
    recycle), its per-frame update (position, alpha state machines) and its
    render step, followed by the properties the specification states about
    them.

    Conventions of the embedding:
    - a JavaScript number is an exact rational ([Q]); IEEE rounding, NaN and
      the infinities are outside the model, so every statement below is about
      the arithmetic the code writes down, not about its rounding;
    - a method that mutates [this] takes the particle and returns the
      updated one; a method that draws random numbers runs in the state
      monad [Rand] over an explicit random source;
    - the 2D drawing context is shared by all particles of a canvas: it is a
      separate state ([Context2D]) threaded through [render];
    - a JavaScript exception is the [Throw] result. *)

From stdpp Require Import base strings gmap.
From Stdlib Require Import QArith Qabs Qround Qminmax Lqa.

Local Open Scope Q_scope.

(** * Numbers *)

Definition Qltb (x y : Q) : bool := negb (Qle_bool y x).
Definition Qgtb (x y : Q) : bool := Qltb y x.

(** JavaScript truthiness of a number: every number but zero. *)
Definition truthy (x : Q) : bool := negb (Qeq_bool x 0).

(** [a || b] on numbers. *)
Definition or_else (a b : Q) : Q := if truthy a then a else b.

#[global] Arguments Qltb : simpl never.
#[global] Arguments Qgtb : simpl never.
#[global] Arguments truthy : simpl never.

(** * The random source

    [Math.random()] is the only source of randomness. The source is a
    sequence of outcomes and a cursor; a draw returns the outcome under the
    cursor and advances it. *)

Record Rng := { draws : nat -> Q; cursor : nat }.

Definition advance (g : Rng) : Rng :=
  {| draws := draws g; cursor := S (cursor g) |}.

(** Every outcome of [Math.random()] lies in [0, 1). *)
Definition unit_draws (g : Rng) : Prop := forall n, 0 <= draws g n < 1.

Definition Rand (A : Type) : Type := Rng -> A * Rng.

#[global] Instance Rand_ret : MRet Rand := fun A (a : A) g => (a, g).
#[global] Instance Rand_bind : MBind Rand :=
  fun A B (k : A -> Rand B) (m : Rand A) g => let (a, g') := m g in k a g'.

Definition Math_random : Rand Q := fun g => (draws g (cursor g), advance g).

(** * helpers.js

    The helper module is imported by the particle but is not part of the
    source at hand; its functions are modelled from the specification. *)

(** Modelled from the spec: [random(min, max)], "uniform random in range",
    absent from the source. One outcome [u] of the random source is mapped
    affinely onto the range. *)
Definition random (lo hi : Q) : Rand Q :=
  u ← Math_random; mret (lo + (hi - lo) * u).

(** Modelled from the spec: [roll(chance)], "probability roll", absent from
    the source. One outcome decides: the roll succeeds when the outcome, an
    element of [0, 1), is below [chance], hence with probability
    [chance]. *)
Definition roll (chance : Q) : Rand bool :=
  u ← Math_random; mret (Qltb u chance).

(** Modelled from the spec: [round(value)], "rounding", absent from the
    source: the nearest integer. *)
Definition round (x : Q) : Q := inject_Z (Qfloor (x + 0.5)).

(** Modelled from the spec: [clamp(value, min, max)], "clamping", absent
    from the source. *)
Definition clamp (v lo hi : Q) : Q := Qmax lo (Qmin hi v).

(** Modelled from the spec: [randomArray(array)], "random pick from a set",
    absent from the source. An empty array yields [undefined] ([None]). *)
Definition randomArray {A} (l : list A) : Rand (option A) :=
  u ← random 0 (inject_Z (Z.of_nat (length l)));
  mret (nth_error l (Z.to_nat (Qfloor u))).

(** The trigonometric helpers and the context's rotation are irrational
    valued; they are an interface of the development. [cartesian] and
    [radian] are the helpers of that name, [Math_cos] and [Math_sin] serve
    the context's [rotate]. *)
Class Trig := {
  cartesian : Q -> Q * Q;
  radian : Q -> Q;
  Math_cos : Q -> Q;
  Math_sin : Q -> Q
}.

(** A rational stand-in for the interface, used to evaluate examples only. *)
Definition approx_trig : Trig := {|
  radian := fun a => a * (355 # 113) / 180;
  Math_cos := fun x => 1 - x * x / 2;
  Math_sin := fun x => x - x * x * x / 6;
  cartesian := fun a =>
    let r := (a - 90) * (355 # 113) / 180 in
    (1 - r * r / 2, r - r * r * r / 6)
|}.

(** * Data model *)

Record Canvas := { width : Q; height : Q }.

(** [settings.color] and [settings.shape]: an array of names, or anything
    else ([Array.isArray] fails). *)
Inductive ArraySetting := IsArray (l : list string) | NotArray.

Module Settings.
Record t := {
  minAlpha : Q;
  maxAlpha : Q;
  alphaSpeed : Q;
  alphaVariance : Q;
  twinkle : bool;
  minSize : Q;
  maxSize : Q;
  speed : Q;
  parallax : Q;
  direction : Q;
  xVariance : Q;
  yVariance : Q;
  drift : Q;
  rotate : bool;
  rotation : Q;
  color : ArraySetting;
  shape : ArraySetting;
  composition : string
}.
End Settings.

(** The own properties of a particle. [images] is [None] when the parent
    has none; [shape], [fillColor] and [strokeColor] are [None] for
    [undefined]. [resettingTwinkle] is never initialised by the code; it is
    falsy until the twinkle machine sets it. *)
Record Sparticle := mkSparticle {
  canvas : Canvas;
  images : option (list string);
  settings : Settings.t;
  frame : Q;
  frameoffset : Q;
  size : Q;
  da : Q;
  dx : Q;
  dy : Q;
  dd : Q;
  dr : Q;
  alpha : Q;
  shape : option string;
  fillColor : option string;
  strokeColor : option string;
  px : Q;
  py : Q;
  rotation : Q;
  resettingTwinkle : bool
}.

(** Assignments [this.f = v]. *)
Definition set_frame (v : Q) (p : Sparticle) : Sparticle :=
  let '(mkSparticle c i s _ fo sz a x y d r al sh fc sc qx qy ro rt) := p in
  mkSparticle c i s v fo sz a x y d r al sh fc sc qx qy ro rt.
Definition set_frameoffset (v : Q) (p : Sparticle) : Sparticle :=
  let '(mkSparticle c i s f _ sz a x y d r al sh fc sc qx qy ro rt) := p in
  mkSparticle c i s f v sz a x y d r al sh fc sc qx qy ro rt.
Definition set_size (v : Q) (p : Sparticle) : Sparticle :=
  let '(mkSparticle c i s f fo _ a x y d r al sh fc sc qx qy ro rt) := p in
  mkSparticle c i s f fo v a x y d r al sh fc sc qx qy ro rt.
Definition set_da (v : Q) (p : Sparticle) : Sparticle :=
  let '(mkSparticle c i s f fo sz _ x y d r al sh fc sc qx qy ro rt) := p in
  mkSparticle c i s f fo sz v x y d r al sh fc sc qx qy ro rt.
Definition set_dx (v : Q) (p : Sparticle) : Sparticle :=
  let '(mkSparticle c i s f fo sz a _ y d r al sh fc sc qx qy ro rt) := p in
  mkSparticle c i s f fo sz a v y d r al sh fc sc qx qy ro rt.
Definition set_dy (v : Q) (p : Sparticle) : Sparticle :=
  let '(mkSparticle c i s f fo sz a x _ d r al sh fc sc qx qy ro rt) := p in
  mkSparticle c i s f fo sz a x v d r al sh fc sc qx qy ro rt.
Definition set_dd (v : Q) (p : Sparticle) : Sparticle :=
  let '(mkSparticle c i s f fo sz a x y _ r al sh fc sc qx qy ro rt) := p in
  mkSparticle c i s f fo sz a x y v r al sh fc sc qx qy ro rt.
Definition set_dr (v : Q) (p : Sparticle) : Sparticle :=
  let '(mkSparticle c i s f fo sz a x y d _ al sh fc sc qx qy ro rt) := p in
  mkSparticle c i s f fo sz a x y d v al sh fc sc qx qy ro rt.
Definition set_alpha (v : Q) (p : Sparticle) : Sparticle :=
  let '(mkSparticle c i s f fo sz a x y d r _ sh fc sc qx qy ro rt) := p in
  mkSparticle c i s f fo sz a x y d r v sh fc sc qx qy ro rt.
Definition set_shape (v : option string) (p : Sparticle) : Sparticle :=
  let '(mkSparticle c i s f fo sz a x y d r al _ fc sc qx qy ro rt) := p in
  mkSparticle c i s f fo sz a x y d r al v fc sc qx qy ro rt.
Definition set_fillColor (v : option string) (p : Sparticle) : Sparticle :=
  let '(mkSparticle c i s f fo sz a x y d r al sh _ sc qx qy ro rt) := p in
  mkSparticle c i s f fo sz a x y d r al sh v sc qx qy ro rt.
Definition set_strokeColor (v : option string) (p : Sparticle) : Sparticle :=
  let '(mkSparticle c i s f fo sz a x y d r al sh fc _ qx qy ro rt) := p in
  mkSparticle c i s f fo sz a x y d r al sh fc v qx qy ro rt.
Definition set_px (v : Q) (p : Sparticle) : Sparticle :=
  let '(mkSparticle c i s f fo sz a x y d r al sh fc sc _ qy ro rt) := p in
  mkSparticle c i s f fo sz a x y d r al sh fc sc v qy ro rt.
Definition set_py (v : Q) (p : Sparticle) : Sparticle :=
  let '(mkSparticle c i s f fo sz a x y d r al sh fc sc qx _ ro rt) := p in
  mkSparticle c i s f fo sz a x y d r al sh fc sc qx v ro rt.
Definition set_rotation (v : Q) (p : Sparticle) : Sparticle :=
  let '(mkSparticle c i s f fo sz a x y d r al sh fc sc qx qy _ rt) := p in
  mkSparticle c i s f fo sz a x y d r al sh fc sc qx qy v rt.
Definition set_resettingTwinkle (v : bool) (p : Sparticle) : Sparticle :=
  let '(mkSparticle c i s f fo sz a x y d r al sh fc sc qx qy ro _) := p in
  mkSparticle c i s f fo sz a x y d r al sh fc sc qx qy ro v.

(** * Initialiser and recycler *)

Section Particle.
Context {T : Trig}.

(** [Sparticle.prototype.getColor] *)
Definition getColor (this : Sparticle) : Rand (option string) :=
  match Settings.color (settings this) with
  | IsArray l => randomArray l
  | NotArray => mret None
  end.

(** [Sparticle.prototype.getShapeOrImage] *)
Definition getShapeOrImage (this : Sparticle) : Rand (option string) :=
  match Settings.shape (settings this) with
  | IsArray sh =>
      match head sh, images this with
      | Some first, Some imgs =>
          if String.eqb first "image" then randomArray imgs else randomArray sh
      | _, _ => randomArray sh
      end
  | NotArray => mret None
  end.

(** [Sparticle.prototype.getDelta] *)
Definition getDelta (this : Sparticle) : Q :=
  let s := settings this in
  let baseDelta := Settings.speed s * 0.1 in
  if truthy (Settings.speed s) && truthy (Settings.parallax s)
  then baseDelta + (size this * Settings.parallax s) / 50
  else baseDelta.

(** [Sparticle.prototype.getDeltaVariance] *)
Definition getDeltaVariance (this : Sparticle) (v : Q) : Rand Q :=
  let s := or_else (Settings.speed (settings this)) 10 in
  if Qgtb v 0
  then r ← random (- v) v; mret ((r * s) / 100)
  else mret 0.

(** [Sparticle.prototype.getDeltaX] *)
Definition getDeltaX (this : Sparticle) : Rand Q :=
  let d := getDelta this in
  dv ← getDeltaVariance this (Settings.xVariance (settings this));
  mret (fst (cartesian (Settings.direction (settings this))) * d + dv).

(** [Sparticle.prototype.getDeltaY] *)
Definition getDeltaY (this : Sparticle) : Rand Q :=
  let d := getDelta this in
  dv ← getDeltaVariance this (Settings.yVariance (settings this));
  mret (snd (cartesian (Settings.direction (settings this))) * d + dv).

(** [Sparticle.prototype.getAlphaDelta] *)
Definition getAlphaDelta (this : Sparticle) : Rand Q :=
  let variance := Settings.alphaVariance (settings this) in
  a ← random 1 (variance + 1);
  flip ← roll (1 / 2);
  mret (if flip : bool then - a else a).

(** [Sparticle.prototype.getDriftDelta] *)
Definition getDriftDelta (this : Sparticle) : Rand Q :=
  let drift := Settings.drift (settings this) in
  if negb (truthy drift)
  then mret 0
  else random (drift - drift / 2) (drift + drift / 2).

(** [Sparticle.prototype.getRotationDelta] *)
Definition getRotationDelta (this : Sparticle) : Rand Q :=
  let s := settings this in
  if Settings.rotate s && truthy (Settings.rotation s)
  then
    x ← random 0.5 1.5;
    let r := radian (x * Settings.rotation s) in
    flip ← roll (1 / 2);
    mret (if flip : bool then - r else r)
  else mret 0.

(** [Sparticle.prototype.setup] *)
Definition setup (this : Sparticle) : Rand Sparticle :=
  let s := settings this in
  let this := set_frame 0 this in
  fo ← random 0 360;
  let this := set_frameoffset (round fo) this in
  sz ← random (Settings.minSize s) (Settings.maxSize s);
  let this := set_size (round sz) this in
  a ← getAlphaDelta this;
  let this := set_da a this in
  x ← getDeltaX this;
  let this := set_dx x this in
  y ← getDeltaY this;
  let this := set_dy y this in
  d ← getDriftDelta this;
  let this := set_dd d this in
  r ← getRotationDelta this;
  let this := set_dr r this in
  mret this.

(** [Sparticle.prototype.init] *)
Definition init (this : Sparticle) : Rand Sparticle :=
  this ← setup this;
  a ← random (Settings.minAlpha (settings this)) (Settings.maxAlpha (settings this));
  let this := set_alpha a this in
  sh ← getShapeOrImage this;
  let this := set_shape sh this in
  fc ← getColor this;
  let this := set_fillColor fc this in
  sc ← getColor this;
  let this := set_strokeColor sc this in
  x ← random (- size this * 2) (width (canvas this) + size this);
  let this := set_px (round x) this in
  y ← random (- size this * 2) (height (canvas this) + size this);
  let this := set_py (round y) this in
  ro ← (if Settings.rotate (settings this)
        then a ← random 0 360; mret (radian a)
        else mret 0);
  let this := set_rotation ro this in
  mret this.

(** [Sparticle.prototype.reset] *)
Definition reset (this : Sparticle) : Rand Sparticle :=
  this ← setup this;
  let this :=
    if Qltb (py this) 0
    then set_py (height (canvas this) + size this * 2) this
    else if Qgtb (py this) (height (canvas this))
    then set_py (0 - size this * 2) this
    else this in
  let this :=
    if Qltb (px this) 0
    then set_px (width (canvas this) + size this * 2) this
    else if Qgtb (px this) (width (canvas this))
    then set_px (0 - size this * 2) this
    else this in
  mret this.

(** [Sparticle.prototype.isOffCanvas] *)
Definition isOffCanvas (this : Sparticle) : bool :=
  let topleft := 0 - size this * 3 in
  let bottom := height (canvas this) + size this * 3 in
  let right := width (canvas this) + size this * 3 in
  Qltb (px this) topleft || Qgtb (px this) right
  || Qltb (py this) topleft || Qgtb (py this) bottom.

(** * Per-frame update *)

(** [Sparticle.prototype.updateFade]: the new alpha and the particle, whose
    [da] the method may have reversed. *)
Definition updateFade (this : Sparticle) : Q * Sparticle :=
  let s := settings this in
  let tick := (da this / 1000) * Settings.alphaSpeed s * 0.5 in
  let alpha := alpha this + tick in
  let over := Qgtb (da this) 0 && Qgtb alpha (Settings.maxAlpha s) in
  let under := Qltb (da this) 0 && Qltb alpha (Settings.minAlpha s) in
  if over || under
  then
    let this := set_da (- da this) this in
    let alpha := Settings.maxAlpha s in
    let alpha := if under then Settings.minAlpha s else alpha in
    (alpha, this)
  else (alpha, this).

(** [Sparticle.prototype.updateTwinkle]: the new alpha and the particle,
    whose [resettingTwinkle] the method may have switched. *)
Definition updateTwinkle (this : Sparticle) : Q * Sparticle :=
  let s := settings this in
  let alpha := alpha this in
  let delta := Qabs (da this) in
  let over := Qgtb alpha (Settings.maxAlpha s) in
  let under := Qltb alpha (Settings.minAlpha s) in
  let tick := (delta / 1000) * Settings.alphaSpeed s * 0.5 in
  let alpha :=
    if resettingTwinkle this
    then alpha + 0.02 * Settings.alphaSpeed s
    else alpha - tick in
  if under
  then (Settings.minAlpha s, set_resettingTwinkle true this)
  else if over
  then (Settings.maxAlpha s, set_resettingTwinkle false this)
  else (alpha, this).

(** [Sparticle.prototype.updateAlpha] *)
Definition updateAlpha (this : Sparticle) : Sparticle :=
  if Qgtb (Settings.alphaSpeed (settings this)) 0
  then
    if Settings.twinkle (settings this)
    then let (a, this) := updateTwinkle this in set_alpha a this
    else let (a, this) := updateFade this in set_alpha a this
  else this.

(** [Sparticle.prototype.updateRotation] *)
Definition updateRotation (this : Sparticle) : Sparticle :=
  let s := settings this in
  if Settings.rotate s && truthy (Settings.rotation s)
  then set_rotation (rotation this + dr this) this
  else this.

(** [Sparticle.prototype.updateDrift]. A division by a zero delta is the
    rational [0] here, where JavaScript yields an infinity or NaN. *)
Definition updateDrift (this : Sparticle) : Sparticle :=
  let s := settings this in
  let dir := Settings.direction s in
  if truthy (Settings.drift s) && truthy (Settings.speed s)
  then
    if (Qgtb dir 150 && Qltb dir 210)
       || (Qgtb dir 330 && Qltb dir 390)
       || (Qgtb dir (-30) && Qltb dir 30)
    then
      set_px (px this + (fst (cartesian (frame this + frameoffset this)) * dd this)
                        / (getDelta this * 15)) this
    else if (Qgtb dir 60 && Qltb dir 120) || (Qgtb dir 240 && Qltb dir 300)
    then
      set_py (py this + (snd (cartesian (frame this + frameoffset this)) * dd this)
                        / (getDelta this * 15)) this
    else this
  else this.

(** [Sparticle.prototype.updatePosition] *)
Definition updatePosition (this : Sparticle) : Rand Sparticle :=
  if isOffCanvas this
  then reset this
  else
    let this := set_px (px this + dx this) this in
    let this := set_py (py this + dy this) this in
    let this := updateDrift this in
    let this := updateRotation this in
    mret this.

(** [Sparticle.prototype.update] *)
Definition update (this : Sparticle) : Rand Sparticle :=
  let this := set_frame (frame this + 1) this in
  this ← updatePosition this;
  mret (updateAlpha this).

End Particle.

(** * The shared drawing context *)

(** The affine transform of a 2D context, in the argument order of
    [setTransform(a, b, c, d, e, f)]. *)
Record Matrix := mkMatrix { m_a : Q; m_b : Q; m_c : Q; m_d : Q; m_e : Q; m_f : Q }.

Definition identity : Matrix := mkMatrix 1 0 0 1 0 0.

(** The current transform [m] followed by [n], as [transform], [translate]
    and [rotate] compose them. *)
Definition compose (m n : Matrix) : Matrix :=
  mkMatrix (m_a m * m_a n + m_c m * m_b n) (m_b m * m_a n + m_d m * m_b n)
           (m_a m * m_c n + m_c m * m_d n) (m_b m * m_c n + m_d m * m_d n)
           (m_a m * m_e n + m_c m * m_f n + m_e m)
           (m_b m * m_e n + m_d m * m_f n + m_f m).

(** One [drawImage] call as the surface sees it: the bitmap, the source and
    destination rectangles, and the context state in force. *)
Record DrawCall := {
  bitmap : Canvas;
  source : Q * Q * Q * Q;
  destination : Q * Q * Q * Q;
  with_transform : Matrix;
  with_alpha : Q;
  with_composite : string
}.

Record Context2D := mkContext2D {
  transform : Matrix;
  globalAlpha : Q;
  globalCompositeOperation : string;
  drawn : list DrawCall
}.

(** A context as [getContext] hands it out. *)
Definition fresh_context : Context2D := mkContext2D identity 1 "source-over" [].

Definition ctx_setTransform (m : Matrix) (ctx : Context2D) : Context2D :=
  mkContext2D m (globalAlpha ctx) (globalCompositeOperation ctx) (drawn ctx).
Definition ctx_transform (m : Matrix) (ctx : Context2D) : Context2D :=
  ctx_setTransform (compose (transform ctx) m) ctx.
Definition ctx_translate (x y : Q) (ctx : Context2D) : Context2D :=
  ctx_transform (mkMatrix 1 0 0 1 x y) ctx.
Definition ctx_rotate `{Trig} (angle : Q) (ctx : Context2D) : Context2D :=
  ctx_transform
    (mkMatrix (Math_cos angle) (Math_sin angle) (- Math_sin angle) (Math_cos angle) 0 0) ctx.
Definition ctx_set_globalAlpha (a : Q) (ctx : Context2D) : Context2D :=
  mkContext2D (transform ctx) a (globalCompositeOperation ctx) (drawn ctx).
Definition ctx_set_globalCompositeOperation (op : string) (ctx : Context2D) : Context2D :=
  mkContext2D (transform ctx) (globalAlpha ctx) op (drawn ctx).

Inductive result (A : Type) : Type :=
  | Ok (a : A)
  | Throw (e : string).
Arguments Ok {A} a.
Arguments Throw {A} e.

(** The value of a division: a rational, an infinity (of either sign) or
    NaN. [render] divides by sizes that may be zero, and the context treats
    an argument that is not finite differently from a number. *)
Inductive Num := Fin (q : Q) | Infinite | NaN.

(** [x / y] *)
Definition js_div (x y : Num) : Num :=
  match x, y with
  | NaN, _ | _, NaN => NaN
  | Infinite, Infinite => NaN
  | Infinite, Fin _ => Infinite
  | Fin _, Infinite => Fin 0
  | Fin a, Fin b =>
      if Qeq_bool b 0
      then (if Qeq_bool a 0 then NaN else Infinite)
      else Fin (a / b)
  end.

(** [transform(a, 0, 0, d, 0, 0)]: a call with an argument that is not
    finite is ignored by the context. *)
Definition ctx_scale (a d : Num) (ctx : Context2D) : Context2D :=
  match a, d with
  | Fin a, Fin d => ctx_transform (mkMatrix a 0 0 d 0 0) ctx
  | _, _ => ctx
  end.

(** [drawImage] of a canvas. A call with a destination that is not finite
    returns without drawing; otherwise a canvas without extent is refused
    with an exception, and any other is drawn under the state in force. *)
Definition ctx_drawImage (img : Canvas) (src : Q * Q * Q * Q) (dx dy : Num) (dw dh : Q)
    (ctx : Context2D) : result unit * Context2D :=
  match dx, dy with
  | Fin x, Fin y =>
      if Qeq_bool (width img) 0 || Qeq_bool (height img) 0
      then (Throw "InvalidStateError", ctx)
      else
        (Ok (),
         mkContext2D (transform ctx) (globalAlpha ctx) (globalCompositeOperation ctx)
           (drawn ctx ++ [ {| bitmap := img; source := src;
                              destination := (x, y, dw, dh);
                              with_transform := transform ctx;
                              with_alpha := globalAlpha ctx;
                              with_composite := globalCompositeOperation ctx |} ]))
  | _, _ => (Ok (), ctx)
  end.

(** * Renderer *)

(** A property key: [undefined] reads the property named "undefined". *)
Definition key (o : option string) : string := default "undefined" o.

Section Render.
Context {T : Trig}.

(** [Sparticle.prototype.renderRotate] *)
Definition renderRotate (this : Sparticle) (ctx : Context2D) : Context2D :=
  if Settings.rotate (settings this)
  then
    let centerX := px this + size this / 2 in
    let centerY := py this + size this / 2 in
    let ctx := ctx_translate centerX centerY ctx in
    let ctx := ctx_rotate (rotation this) ctx in
    ctx_translate (- centerX) (- centerY) ctx
  else ctx.

(** [Sparticle.prototype.render]. [images] is the cache of pre-rendered
    bitmaps, by colour and then by shape; reading a bitmap that is not
    there throws. The outcome is the returned particle or the exception,
    next to the context as the call leaves it: the context is shared, so
    what a throwing call has written stays written. *)
Definition render (this : Sparticle) (images : gmap string (gmap string Canvas))
    (ctx : Context2D) : result Sparticle * Context2D :=
  match images !! key (fillColor this) with
  | None => (Throw "TypeError", ctx)
  | Some byShape =>
      match byShape !! key (shape this) with
      | None => (Throw "TypeError", ctx)
      | Some offscreenCanvas =>
          let canvasSize := width offscreenCanvas in
          let scale := js_div (Fin (size this)) (Fin canvasSize) in
          let px := js_div (Fin (px this)) scale in
          let py := js_div (Fin (py this)) scale in
          let ctx := renderRotate this ctx in
          let ctx := ctx_set_globalAlpha (clamp (alpha this) 0 1) ctx in
          let ctx := ctx_scale scale scale ctx in
          let ctx :=
            if negb (String.eqb (globalCompositeOperation ctx)
                       (Settings.composition (settings this)))
            then ctx_set_globalCompositeOperation (Settings.composition (settings this)) ctx
            else ctx in
          match ctx_drawImage offscreenCanvas (0, 0, canvasSize, canvasSize)
                  px py canvasSize canvasSize ctx with
          | (Throw e, ctx) => (Throw e, ctx)
          | (Ok _, ctx) =>
              let ctx := ctx_setTransform (mkMatrix 1 0 0 1 0 0) ctx in
              (Ok this, ctx)
          end
      end
  end.

End Render.

(** * Constructor *)

(** The argument of the constructor, when it is an object: each property
    the constructor reads may be missing. *)
Record Parent := {
  parent_canvas : option Canvas;
  parent_images : option (list string);
  parent_settings : option Settings.t
}.

(** The object under construction: without own properties, or with all of
    them set by [init]. *)
Inductive NewObject := Bare | Initialised (p : Sparticle).

Definition warning : string := "Invalid parameters given to Sparticle()".

(** [new Sparticle(parent)]. A falsy argument is [None]. The result is what
    the [new] expression evaluates to, the lines written to the console,
    and the random source as left behind. Reading [canvas.getContext] or
    [settings.minSize] of a missing property throws; the latter happens in
    [setup], after its first draw. The properties [init] has yet to assign
    start from placeholders: [init] writes each of them before it is read,
    but for [resettingTwinkle], which is read as falsy. *)
Definition new_Sparticle `{Trig} (parent : option Parent)
  : Rand (result NewObject * list string) :=
  match parent with
  | Some par =>
      match parent_canvas par with
      | None => mret (Throw "TypeError", [])
      | Some cv =>
          match parent_settings par with
          | None => _ ← random 0 360; mret (Throw "TypeError", [])
          | Some st =>
              this ← init (mkSparticle cv (parent_images par) st 0 0 0 0 0 0 0 0 0
                             None None None 0 0 0 false);
              mret (Ok (Initialised this), [])
          end
      end
  | None => mret (Ok Bare, [warning])
  end.

(** * Example data

    Concrete settings, particles and random sources on which the
    definitions are evaluated below. *)

Definition example_settings (tw : bool) (spd variance : Q) : Settings.t := {|
  Settings.minAlpha := 0;
  Settings.maxAlpha := 1;
  Settings.alphaSpeed := 1;
  Settings.alphaVariance := variance;
  Settings.twinkle := tw;
  Settings.minSize := 10;
  Settings.maxSize := 10;
  Settings.speed := spd;
  Settings.parallax := 0;
  Settings.direction := 180;
  Settings.xVariance := 1;
  Settings.yVariance := 1;
  Settings.drift := 0;
  Settings.rotate := false;
  Settings.rotation := 0;
  Settings.color := IsArray ["red"; "blue"];
  Settings.shape := IsArray ["circle"; "square"];
  Settings.composition := "screen"
|}.

(** A particle of size 10 on a 100 by 100 canvas, at rest at (50, 50). *)
Definition example_particle (s : Settings.t) : Sparticle := {|
  canvas := {| width := 100; height := 100 |};
  images := None;
  settings := s;
  frame := 0;
  frameoffset := 0;
  size := 10;
  da := 1;
  dx := 0;
  dy := 0;
  dd := 0;
  dr := 0;
  alpha := 1 / 2;
  shape := Some "circle";
  fillColor := Some "red";
  strokeColor := Some "red";
  px := 50;
  py := 50;
  rotation := 0;
  resettingTwinkle := false
|}.

(** A random source whose every outcome is [u]. *)
Definition constant_rng (u : Q) : Rng := {| draws := fun _ => u; cursor := 0 |}.

(** The step of the decaying sub-state. *)
Definition twinkle_tick (p : Sparticle) : Q :=
  (Qabs (da p) / 1000) * Settings.alphaSpeed (settings p) * 0.5.

(** A particle far off the left edge and slightly above the top edge. *)
Definition stray_particle : Sparticle :=
  set_py (- (5)) (set_px (- (1000)) (example_particle (example_settings false 5 1))).

(** A cache holding one 20 by 20 bitmap, the red circle. *)
Definition example_cache : gmap string (gmap string Canvas) :=
  {[ "red" := {[ "circle" := {| width := 20; height := 20 |} ]} ]}.

(** The parameters of one lifecycle that govern motion and fading: size,
    alpha delta, drift delta, rotation delta and the velocity. *)
Definition motion_fields (p : Sparticle) : Q * Q * Q * Q * (Q * Q) :=
  (size p, da p, dd p, dr p, (dx p, dy p)).

(** The colour and shape choices of a particle. *)
Definition choice_fields (p : Sparticle)
  : option string * option string * option string :=
  (fillColor p, strokeColor p, shape p).

(** The draw call ran under the alpha and the composite mode of [this]. *)
Definition own_state (this : Sparticle) (call : DrawCall) : Prop :=
  with_alpha call = clamp (alpha this) 0 1
  /\ with_composite call = Settings.composition (settings this).

(** The context after the example particle, of alpha 1/2 and mode "screen",
    has been rendered on a fresh context. *)
Definition after_example_render : result Sparticle * Context2D :=
  @render approx_trig (example_particle (example_settings false 5 1))
    example_cache fresh_context.

(** [n] calls of [update] in a row on one particle, as an animation loop
    makes them, one per frame. *)
Fixpoint update_n `{Trig} (n : nat) (this : Sparticle) : Rand Sparticle :=
  match n with
  | O => mret this
  | S n => this ← update this; update_n n this
  end.

(** The image of the point (x, y) under a transform. *)
Definition apply_matrix (m : Matrix) (x y : Q) : Q * Q :=
  (m_a m * x + m_c m * y + m_e m, m_b m * x + m_d m * y + m_f m).

(** What [updateAlpha] has no business with: everything but alpha, the
    alpha delta and the twinkle flag. *)
Definition beyond_alpha (p : Sparticle) :=
  (canvas p, images p, settings p, (frame p, frameoffset p),
   (size p, dx p, dy p, dd p, dr p), choice_fields p, (px p, py p, rotation p)).

(** The directions [updateDrift] takes for somewhat vertical, and for
    somewhat horizontal: open windows of 60 degrees around 0, 180 and 360,
    and around 90 and 270. *)
Definition near_vertical (dir : Q) : Prop :=
  150 < dir < 210 \/ 330 < dir < 390 \/ -30 < dir < 30.
Definition near_horizontal (dir : Q) : Prop :=
  60 < dir < 120 \/ 240 < dir < 300.

(** Settings with rotation switched on at rate 1, and a particle of size
    10 at (50, 50) turned by the angle 1. *)
Definition turning_settings : Settings.t := {|
  Settings.minAlpha := 0; Settings.maxAlpha := 1; Settings.alphaSpeed := 1;
  Settings.alphaVariance := 1; Settings.twinkle := false;
  Settings.minSize := 10; Settings.maxSize := 10; Settings.speed := 5;
  Settings.parallax := 0; Settings.direction := 180;
  Settings.xVariance := 0; Settings.yVariance := 0; Settings.drift := 0;
  Settings.rotate := true; Settings.rotation := 1;
  Settings.color := NotArray; Settings.shape := NotArray;
  Settings.composition := "screen" |}.
Definition turned_particle : Sparticle :=
  set_rotation 1 (example_particle turning_settings).

(** * Auxiliary facts *)

Lemma Qltb_lt (x y : Q) : Qltb x y = true <-> x < y.
Proof.
  unfold Qltb. rewrite negb_true_iff, <- not_true_iff_false, Qle_bool_iff.
  split; [apply Qnot_le_lt | apply Qlt_not_le].
Qed.

Lemma Qltb_ge (x y : Q) : Qltb x y = false <-> y <= x.
Proof. unfold Qltb. rewrite negb_false_iff. apply Qle_bool_iff. Qed.

Lemma Qgtb_gt (x y : Q) : Qgtb x y = true <-> y < x.
Proof. apply Qltb_lt. Qed.

Lemma Qgtb_le (x y : Q) : Qgtb x y = false <-> x <= y.
Proof. apply Qltb_ge. Qed.

Lemma truthy_nonzero (x : Q) : truthy x = true <-> ~ x == 0.
Proof.
  unfold truthy. rewrite negb_true_iff, <- not_true_iff_false, Qeq_bool_iff.
  reflexivity.
Qed.

Lemma truthy_zero (x : Q) : truthy x = false <-> x == 0.
Proof. unfold truthy. rewrite negb_false_iff. apply Qeq_bool_iff. Qed.

(** Decide one comparison of the code and keep the fact. *)
Ltac split_cmp c :=
  let E := fresh "E" in
  destruct c eqn:E;
  [ first [ apply Qltb_lt in E | apply Qgtb_gt in E | apply truthy_nonzero in E ]
  | first [ apply Qltb_ge in E | apply Qgtb_le in E | apply truthy_zero in E ] ].

(** The setters touch one field. *)
Lemma settings_set_alpha a p : settings (set_alpha a p) = settings p.
Proof. now destruct p. Qed.
Lemma alpha_set_alpha a p : alpha (set_alpha a p) = a.
Proof. now destruct p. Qed.
Lemma settings_updateFade p : settings (snd (updateFade p)) = settings p.
Proof. destruct p; unfold updateFade; cbn. now destruct (_ || _). Qed.
Lemma settings_updateTwinkle p : settings (snd (updateTwinkle p)) = settings p.
Proof.
  destruct p; unfold updateTwinkle; cbn.
  destruct (Qltb alpha0 _); [reflexivity|]. now destruct (Qgtb alpha0 _).
Qed.

Lemma settings_updateAlpha p : settings (updateAlpha p) = settings p.
Proof.
  unfold updateAlpha.
  destruct (Qgtb _ _); [|reflexivity].
  destruct (Settings.twinkle _).
  - pose proof (settings_updateTwinkle p) as H.
    destruct (updateTwinkle p); cbn in *. now rewrite settings_set_alpha.
  - pose proof (settings_updateFade p) as H.
    destruct (updateFade p); cbn in *. now rewrite settings_set_alpha.
Qed.

(** [updateAlpha] in each mode, as the alpha it stores. *)
Lemma alpha_updateAlpha_fade p :
  0 < Settings.alphaSpeed (settings p) ->
  Settings.twinkle (settings p) = false ->
  alpha (updateAlpha p) = fst (updateFade p).
Proof.
  intros Hs Ht. unfold updateAlpha.
  apply Qgtb_gt in Hs. rewrite Hs, Ht.
  destruct (updateFade p). apply alpha_set_alpha.
Qed.

Lemma alpha_updateAlpha_twinkle p :
  0 < Settings.alphaSpeed (settings p) ->
  Settings.twinkle (settings p) = true ->
  alpha (updateAlpha p) = fst (updateTwinkle p)
  /\ resettingTwinkle (updateAlpha p) = resettingTwinkle (snd (updateTwinkle p))
  /\ da (updateAlpha p) = da p.
Proof.
  intros Hs Ht. unfold updateAlpha.
  apply Qgtb_gt in Hs. rewrite Hs, Ht.
  destruct p; unfold updateTwinkle; cbn.
  destruct (Qltb alpha0 _); [now cbn|]. destruct (Qgtb alpha0 _); now cbn.
Qed.

Lemma twinkle_tick_nonneg p :
  0 < Settings.alphaSpeed (settings p) -> 0 <= twinkle_tick p.
Proof.
  intros Hs. unfold twinkle_tick.
  pose proof (Qabs_nonneg (da p)) as Ha.
  assert (0 <= Qabs (da p) / 1000) by (apply Qle_shift_div_l; lra).
  nra.
Qed.

Lemma twinkle_tick_pos p :
  0 < Settings.alphaSpeed (settings p) -> ~ da p == 0 -> 0 < twinkle_tick p.
Proof.
  intros Hs Hd. unfold twinkle_tick.
  assert (0 < Qabs (da p)) as Ha.
  { destruct (Qlt_le_dec 0 (Qabs (da p))) as [|Hle]; [assumption|].
    exfalso. apply Hd. apply Qabs_Qle_condition in Hle. lra. }
  assert (0 < Qabs (da p) / 1000) by (apply Qlt_shift_div_l; lra).
  nra.
Qed.

(** * Alpha stays in range (fade) and is caught one step late (twinkle) *)

Lemma fade_tick_sign (d s : Q) :
  0 < s ->
  (0 < d -> 0 < d / 1000 * s * 0.5)
  /\ (d < 0 -> d / 1000 * s * 0.5 < 0)
  /\ (d == 0 -> d / 1000 * s * 0.5 == 0).
Proof.
  intros Hs.
  assert (d / 1000 * s * 0.5 == d * s * (1 # 2000)) as -> by (field; lra).
  repeat split; intros Hd; [nra | nra | rewrite Hd; ring].
Qed.

Lemma updateFade_range (p : Sparticle) :
  let s := settings p in
  0 < Settings.alphaSpeed s ->
  Settings.minAlpha s <= alpha p <= Settings.maxAlpha s ->
  Settings.minAlpha s <= fst (updateFade p) <= Settings.maxAlpha s.
Proof.
  destruct p as [c i s f fo sz d x y dd0 r al sh fc sc qx qy ro rt].
  cbn. intros Hs Hal. unfold updateFade; cbn.
  destruct (fade_tick_sign d _ Hs) as (Hpos & Hneg & Hzero).
  set (t := d / 1000 * Settings.alphaSpeed s * 0.5) in *.
  split_cmp (Qgtb d 0); split_cmp (Qltb d 0); cbn;
    try split_cmp (Qgtb (al + t) (Settings.maxAlpha s));
    try split_cmp (Qltb (al + t) (Settings.minAlpha s)); cbn;
    try specialize (Hpos ltac:(assumption));
    try specialize (Hneg ltac:(assumption));
    try (assert (d == 0) as Hd0 by lra; specialize (Hzero Hd0));
    lra.
Qed.

(** A twinkle step that starts outside the range puts alpha on the bound it
    crossed and switches the sub-state. *)
Lemma updateTwinkle_clamps (p : Sparticle) :
  let s := settings p in
  (alpha p < Settings.minAlpha s ->
     fst (updateTwinkle p) = Settings.minAlpha s
     /\ resettingTwinkle (snd (updateTwinkle p)) = true)
  /\ (Settings.minAlpha s <= alpha p -> Settings.maxAlpha s < alpha p ->
     fst (updateTwinkle p) = Settings.maxAlpha s
     /\ resettingTwinkle (snd (updateTwinkle p)) = false).
Proof.
  destruct p as [c i s f fo sz d x y dd0 r al sh fc sc qx qy ro rt].
  cbn. unfold updateTwinkle; cbn. split.
  - intros H. apply Qltb_lt in H. rewrite H. now cbn.
  - intros Hlo Hhi. apply Qltb_ge in Hlo. apply Qgtb_gt in Hhi.
    rewrite Hlo, Hhi. now cbn.
Qed.

(** A twinkle step that starts inside the range moves alpha by one step of
    the current sub-state and does not clamp. *)
Lemma updateTwinkle_inside (p : Sparticle) :
  let s := settings p in
  Settings.minAlpha s <= alpha p <= Settings.maxAlpha s ->
  fst (updateTwinkle p) =
    (if resettingTwinkle p
     then alpha p + 0.02 * Settings.alphaSpeed s
     else alpha p - twinkle_tick p)
  /\ resettingTwinkle (snd (updateTwinkle p)) = resettingTwinkle p.
Proof.
  destruct p as [c i s f fo sz d x y dd0 r al sh fc sc qx qy ro rt].
  cbn. intros [Hlo Hhi]. unfold updateTwinkle, twinkle_tick; cbn.
  apply Qltb_ge in Hlo. apply Qgtb_le in Hhi. rewrite Hlo, Hhi. now cbn.
Qed.




(** * Twinkle: turning around at the bounds *)

(** In the resetting sub-state a step from inside the range raises alpha;
    in the decaying sub-state it lowers it, when the particle has a
    non-zero delta. *)
Lemma updateTwinkle_direction (p : Sparticle) :
  let s := settings p in
  0 < Settings.alphaSpeed s ->
  Settings.minAlpha s <= alpha p <= Settings.maxAlpha s ->
  (resettingTwinkle p = true -> alpha p < fst (updateTwinkle p))
  /\ (resettingTwinkle p = false -> ~ da p == 0 -> fst (updateTwinkle p) < alpha p).
Proof.
  intros s Hs Hal.
  destruct (updateTwinkle_inside p Hal) as [-> _]. fold s.
  split.
  - intros ->. lra.
  - intros -> Hd. pose proof (twinkle_tick_pos p Hs Hd). lra.
Qed.

(** C3 (as amended). In twinkle mode with [alphaSpeed > 0] and
    [minAlpha <= maxAlpha]: whenever an [updateAlpha] step leaves alpha at
    minAlpha with the machine in the resetting sub-state, the step after it
    strictly increases alpha; whenever a step leaves alpha at maxAlpha with
    the machine in the decaying sub-state, the step after it strictly
    decreases alpha, provided the alpha delta is not zero. A step that
    starts with alpha below minAlpha leaves alpha at minAlpha and enters the
    resetting sub-state; a step that starts with alpha above maxAlpha leaves
    alpha at maxAlpha and enters the decaying sub-state. *)
Theorem twinkle_turnaround (p : Sparticle) :
  let s := settings p in
  let p1 := updateAlpha p in
  Settings.twinkle s = true ->
  0 < Settings.alphaSpeed s ->
  Settings.minAlpha s <= Settings.maxAlpha s ->
  (alpha p1 == Settings.minAlpha s -> resettingTwinkle p1 = true ->
     alpha p1 < alpha (updateAlpha p1))
  /\ (alpha p1 == Settings.maxAlpha s -> resettingTwinkle p1 = false ->
      ~ da p == 0 -> alpha (updateAlpha p1) < alpha p1)
  /\ (alpha p < Settings.minAlpha s ->
      alpha p1 = Settings.minAlpha s /\ resettingTwinkle p1 = true)
  /\ (Settings.maxAlpha s < alpha p ->
      alpha p1 = Settings.maxAlpha s /\ resettingTwinkle p1 = false).
Proof.
  intros s p1 Ht Hs Hmm.
  pose proof (settings_updateAlpha p) as Hset. fold p1 in Hset.
  assert (0 < Settings.alphaSpeed (settings p1)) as Hs1 by now rewrite Hset.
  assert (Settings.twinkle (settings p1) = true) as Ht1 by now rewrite Hset.
  destruct (alpha_updateAlpha_twinkle p Hs Ht) as (Ha & Hr & Hd).
  fold p1 in Ha, Hr, Hd.
  destruct (alpha_updateAlpha_twinkle p1 Hs1 Ht1) as (Ha1 & _ & _).
  destruct (updateTwinkle_clamps p) as [Hunder Hover]. fold s in Hunder, Hover.
  pose proof (updateTwinkle_direction p1 Hs1) as Hdir.
  rewrite Hset in Hdir. fold s in Hdir.
  repeat split.
  - intros Hmin Hres. rewrite Ha1. apply Hdir; [lra | assumption].
  - intros Hmax Hres Hda. rewrite Ha1.
    apply Hdir; [lra | assumption | now rewrite Hd].
  - rewrite Ha. now apply Hunder.
  - rewrite Hr. now apply Hunder.
  - rewrite Ha. apply Hover; [lra | assumption].
  - rewrite Hr. apply Hover; [lra | assumption].
Qed.

(** The theorem at a particle that has dipped below minAlpha = 0: the step
    puts alpha on 0 and the machine in the resetting sub-state, and the
    step after it raises alpha. *)
Lemma twinkle_turnaround_witness :
  let p := set_alpha (- (1 # 4000)) (example_particle (example_settings true 0 1)) in
  (alpha (updateAlpha p) = 0 /\ resettingTwinkle (updateAlpha p) = true)
  /\ alpha (updateAlpha p) < alpha (updateAlpha (updateAlpha p)).
Proof.
  pose proof (twinkle_turnaround
    (set_alpha (- (1 # 4000)) (example_particle (example_settings true 0 1)))
    eq_refl eq_refl ltac:(discriminate)) as (Hup & _ & Hin & _).
  split; [apply Hin | apply Hup]; reflexivity.
Defined.

(** C3 (as stated) fails: a decaying step from alpha = 1/2000 lands exactly
    on minAlpha = 0 without crossing it, the machine stays in the decaying
    sub-state, and the following step lowers alpha to -1/2000. *)
Lemma twinkle_lands_on_min_and_decays :
  let s := example_settings true 0 1 in
  let p := set_alpha (1 # 2000) (example_particle s) in
  Settings.twinkle s = true
  /\ 0 < Settings.alphaSpeed s
  /\ alpha (updateAlpha p) == Settings.minAlpha s
  /\ resettingTwinkle (updateAlpha p) = false
  /\ alpha (updateAlpha (updateAlpha p)) == - (1 # 2000)
  /\ ~ (alpha (updateAlpha p) < alpha (updateAlpha (updateAlpha p))).
Proof.
  cbv zeta. repeat split. intros H. vm_compute in H. discriminate H.
Qed.

(** * Random sampling of the lifecycle parameters *)

Ltac run_rand :=
  unfold random, roll, Math_random, mbind, mret, Rand_bind, Rand_ret; cbn.

Lemma random_value (lo hi : Q) (g : Rng) :
  random lo hi g = (lo + (hi - lo) * draws g (cursor g), advance g).
Proof. reflexivity. Qed.

Lemma roll_value (chance : Q) (g : Rng) :
  roll chance g = (Qltb (draws g (cursor g)) chance, advance g).
Proof. reflexivity. Qed.

(** [random] stays in its range, and below its upper end when the range is
    not a point. *)
Lemma random_range (lo hi : Q) (g : Rng) :
  unit_draws g -> lo <= hi ->
  lo <= fst (random lo hi g) <= hi
  /\ (lo < hi -> fst (random lo hi g) < hi).
Proof.
  intros Hg Hle. rewrite random_value. cbn.
  specialize (Hg (cursor g)). repeat split; intros; nra.
Qed.

Lemma unit_draws_constant (u : Q) : 0 <= u < 1 -> unit_draws (constant_rng u).
Proof. intros H n. exact H. Qed.

(** The alpha delta in terms of the two outcomes it is made of. For a
    variance of at least 0 and outcomes of the random source in [0, 1): the
    magnitude is [1 + variance * u] for the first outcome [u], which lies
    between 1 and alphaVariance + 1; the sign is flipped when the roll on
    the second outcome succeeds, and only then. *)
Lemma getAlphaDelta_magnitude (this : Sparticle) (g : Rng) :
  let variance := Settings.alphaVariance (settings this) in
  let a := fst (getAlphaDelta this g) in
  let u := draws g (cursor g) in
  let flip := fst (roll (1 / 2) (advance g)) in
  unit_draws g ->
  0 <= variance ->
  Qabs a == 1 + variance * u
  /\ 1 <= Qabs a <= variance + 1
  /\ (flip = true -> a == - (1 + variance * u))
  /\ (flip = false -> a == 1 + variance * u).
Proof.
  intros variance a u flip Hg Hv.
  assert (0 <= u < 1) as Hu by apply Hg.
  assert (a = if flip
              then - (1 + (variance + 1 - 1) * u)
              else 1 + (variance + 1 - 1) * u) as Ha by reflexivity.
  assert (0 <= variance * u) as Hvu by nra.
  assert (variance * u <= variance) as Hvu' by nra.
  destruct flip.
  - assert (a == - (1 + variance * u)) as Ha' by (rewrite Ha; ring).
    assert (Qabs a == 1 + variance * u) as Habs.
    { rewrite Ha', Qabs_opp. apply Qabs_pos. lra. }
    repeat split; first [lra | discriminate | (intros _; exact Ha')].
  - assert (a == 1 + variance * u) as Ha' by (rewrite Ha; ring).
    assert (Qabs a == 1 + variance * u) as Habs.
    { rewrite Ha'. apply Qabs_pos. lra. }
    repeat split; first [lra | discriminate | (intros _; exact Ha')].
Qed.

(** The lemma at alphaVariance = 1 with every outcome 3/4. *)
Lemma getAlphaDelta_magnitude_witness :
  let a := fst (getAlphaDelta (example_particle (example_settings false 0 1))
                  (constant_rng (3 # 4))) in
  1 <= Qabs a <= 1 + 1.
Proof.
  refine (proj1 (proj2 (getAlphaDelta_magnitude
    (example_particle (example_settings false 0 1)) (constant_rng (3 # 4)) _ _))).
  - apply unit_draws_constant. split; [discriminate | reflexivity].
  - discriminate.
Defined.


(** * The variance term of the velocity *)

(** C6 (as amended). For a per-axis variance [v > 0] the variance term is
    [random(-v, v) * s / 100] where [s] is the configured speed, or 10 when
    the configured speed is 0; each velocity component is the direction's
    component times the base delta plus that term. With speed 0 the term is
    [random(-v, v) / 10]. *)
Theorem getDeltaVariance_term `{Trig} (this : Sparticle) (v : Q) (g : Rng) :
  let spd := Settings.speed (settings this) in
  let r := fst (random (- v) v g) in
  0 < v ->
  (~ spd == 0 -> fst (getDeltaVariance this v g) = r * spd / 100)
  /\ (spd == 0 -> fst (getDeltaVariance this v g) = r * 10 / 100)
  /\ fst (getDeltaX this g) =
       fst (cartesian (Settings.direction (settings this))) * getDelta this
       + fst (getDeltaVariance this (Settings.xVariance (settings this)) g)
  /\ fst (getDeltaY this g) =
       snd (cartesian (Settings.direction (settings this))) * getDelta this
       + fst (getDeltaVariance this (Settings.yVariance (settings this)) g).
Proof.
  intros spd r Hv. apply Qgtb_gt in Hv.
  repeat split.
  - intros Hs. apply truthy_nonzero in Hs.
    unfold getDeltaVariance, or_else. fold spd. now rewrite Hv, Hs.
  - intros Hs. apply truthy_zero in Hs.
    unfold getDeltaVariance, or_else. fold spd. now rewrite Hv, Hs.
  - unfold getDeltaX, mbind, mret, Rand_bind, Rand_ret.
    now destruct (getDeltaVariance this _ g).
  - unfold getDeltaY, mbind, mret, Rand_bind, Rand_ret.
    now destruct (getDeltaVariance this _ g).
Qed.

(** The theorem at speed 5, variance 1 and the outcome 3/4. *)
Lemma getDeltaVariance_term_witness :
  fst (getDeltaVariance (example_particle (example_settings false 5 1)) 1
         (constant_rng (3 # 4)))
  = fst (random (- (1)) 1 (constant_rng (3 # 4))) * 5 / 100.
Proof.
  refine (proj1 (@getDeltaVariance_term approx_trig
    (example_particle (example_settings false 5 1)) 1 (constant_rng (3 # 4)) _) _).
  - reflexivity.
  - discriminate.
Defined.

(** C6 (as stated) fails at speed 0: the code falls back to a speed of 10,
    and with variance 1 and the outcome 3/4 the term is 1/20, not 0. *)
Lemma getDeltaVariance_nonzero_at_speed_zero :
  let s := example_settings false 0 1 in
  let g := constant_rng (3 # 4) in
  Settings.speed s == 0
  /\ 0 < Settings.xVariance s
  /\ fst (getDeltaVariance (example_particle s) (Settings.xVariance s) g) == 1 # 20
  /\ ~ (fst (getDeltaVariance (example_particle s) (Settings.xVariance s) g) == 0).
Proof.
  cbv zeta. repeat split. intros H. vm_compute in H. discriminate H.
Qed.

(** * What a lifecycle event samples *)

Section Lifecycle.
Context {T : Trig}.

Ltac run_setup :=
  unfold setup, getAlphaDelta, getDeltaX, getDeltaY, getDeltaVariance,
    getDriftDelta, getRotationDelta, getDelta, or_else;
  run_rand.

Ltac split_ifs :=
  repeat (match goal with
          | |- context [if ?c then _ else _] => destruct c
          end; cbn).


Lemma setup_keeps (p : Sparticle) (g : Rng) :
  let q := fst (setup p g) in
  canvas q = canvas p /\ images q = images p /\ settings q = settings p
  /\ alpha q = alpha p /\ choice_fields q = choice_fields p
  /\ px q = px p /\ py q = py p
  /\ rotation q = rotation p /\ resettingTwinkle q = resettingTwinkle p.
Proof.
  destruct p; cbn. run_setup. split_ifs; repeat split.
Qed.

(** [reset] is [setup] followed by the repositioning, which writes [px] and
    [py] only. *)
Lemma reset_after_setup (p : Sparticle) (g : Rng) :
  let q := fst (setup p g) in
  let r := fst (reset p g) in
  motion_fields r = motion_fields q
  /\ canvas r = canvas q /\ images r = images q /\ settings r = settings q
  /\ alpha r = alpha q /\ choice_fields r = choice_fields q
  /\ rotation r = rotation q /\ resettingTwinkle r = resettingTwinkle q
  /\ snd (reset p g) = snd (setup p g).
Proof.
  unfold reset, mbind, mret, Rand_bind, Rand_ret.
  destruct (setup p g) as [q g']. cbn.
  destruct q; cbn.
  split_ifs; repeat split.
Qed.




End Lifecycle.



(** * Recycling at the edges *)

Section Recycle.
Context {T : Trig}.

(** The size of the new lifecycle is the second draw of [setup], rounded. *)
Lemma setup_size (p : Sparticle) (g : Rng) :
  size (fst (setup p g)) =
  round (fst (random (Settings.minSize (settings p)) (Settings.maxSize (settings p))
                (advance g))).
Proof.
  destruct p; cbn.
  unfold setup, getAlphaDelta, getDeltaX, getDeltaY, getDeltaVariance,
    getDriftDelta, getRotationDelta, getDelta, or_else; run_rand.
  repeat (match goal with
          | |- context [if ?c then _ else _] => destruct c
          end; cbn); reflexivity.
Qed.

(** The position [reset] leaves, axis by axis, in terms of the position it
    found and the size of the new lifecycle. *)
Lemma reset_position (p : Sparticle) (g : Rng) :
  let r := fst (reset p g) in
  let w := width (canvas p) in
  let h := height (canvas p) in
  px r = (if Qltb (px p) 0 then w + size r * 2
          else if Qgtb (px p) w then 0 - size r * 2
          else px p)
  /\ py r = (if Qltb (py p) 0 then h + size r * 2
             else if Qgtb (py p) h then 0 - size r * 2
             else py p)
  /\ size r = size (fst (setup p g)).
Proof.
  destruct (setup_keeps p g) as (Hc & _ & _ & _ & _ & Hx & Hy & _).
  cbv zeta. unfold reset, mbind, mret, Rand_bind, Rand_ret.
  destruct (setup p g) as [q g']. cbn in *.
  rewrite <- Hc, <- Hx, <- Hy. clear Hc Hx Hy.
  destruct q; cbn.
  destruct (Qltb py0 0); [|destruct (Qgtb py0 (height canvas0))]; cbn;
    (destruct (Qltb px0 0); [|destruct (Qgtb px0 (width canvas0))]);
    cbn; repeat split.
Qed.

(** C10. [reset] repositions an axis whenever its coordinate is past the raw
    canvas edge, below 0 or above the canvas extent, whatever the 3 x size
    margin, and leaves a coordinate within the canvas alone. A recycle is
    this [reset]; so in a recycle triggered by one axis, the other axis is
    snapped too when it lies between the raw edge and the margin. *)
Theorem reset_snaps_past_raw_edge (p : Sparticle) (g : Rng) :
  let r := fst (reset p g) in
  let w := width (canvas p) in
  let h := height (canvas p) in
  (px p < 0 -> px r = w + size r * 2)
  /\ (0 <= px p -> w < px p -> px r = 0 - size r * 2)
  /\ (py p < 0 -> py r = h + size r * 2)
  /\ (0 <= py p -> h < py p -> py r = 0 - size r * 2)
  /\ (0 <= px p <= w -> px r = px p)
  /\ (0 <= py p <= h -> py r = py p)
  /\ (isOffCanvas p = true -> fst (updatePosition p g) = r).
Proof.
  intros r w h. subst r w h.
  destruct (reset_position p g) as (Hx & Hy & _).
  rewrite Hx, Hy.
  repeat split.
  - intros H. apply Qltb_lt in H. now rewrite H.
  - intros H0 H. apply Qltb_ge in H0. apply Qgtb_gt in H. now rewrite H0, H.
  - intros H. apply Qltb_lt in H. now rewrite H.
  - intros H0 H. apply Qltb_ge in H0. apply Qgtb_gt in H. now rewrite H0, H.
  - intros [H0 H]. apply Qltb_ge in H0. apply Qgtb_le in H. now rewrite H0, H.
  - intros [H0 H]. apply Qltb_ge in H0. apply Qgtb_le in H. now rewrite H0, H.
  - intros Hoff. unfold updatePosition. now rewrite Hoff.
Qed.

(** C4. A particle of non-negative size on a canvas of non-negative extent
    that is off-bounds past an edge by more than the 3 x size margin is
    recycled by one [updatePosition], and the coordinate that triggered the
    recycle is set to the opposite edge with a margin of twice the freshly
    sampled size: exiting left gives [x = width + 2 * size], exiting right
    [x = -2 * size], and likewise for top and bottom. The new coordinate is
    a function of the canvas and the new size only. *)
Theorem recycle_opposite_edge (p : Sparticle) (g : Rng) :
  let r := fst (updatePosition p g) in
  let w := width (canvas p) in
  let h := height (canvas p) in
  0 <= size p -> 0 <= w -> 0 <= h ->
  (px p < 0 - size p * 3 -> isOffCanvas p = true /\ px r = w + size r * 2)
  /\ (w + size p * 3 < px p -> isOffCanvas p = true /\ px r = 0 - size r * 2)
  /\ (py p < 0 - size p * 3 -> isOffCanvas p = true /\ py r = h + size r * 2)
  /\ (h + size p * 3 < py p -> isOffCanvas p = true /\ py r = 0 - size r * 2)
  /\ (isOffCanvas p = true ->
      size r = round (fst (random (Settings.minSize (settings p))
                             (Settings.maxSize (settings p)) (advance g)))).
Proof.
  intros r w h Hsz Hw Hh. subst r w h.
  assert (isOffCanvas p = true ->
          fst (updatePosition p g) = fst (reset p g)) as Hreset.
  { intros Hb. unfold updatePosition. now rewrite Hb. }
  destruct (reset_position p g) as (Hx & Hy & Hs).
  assert (forall a b c d : bool, a || b || c || d = true <->
            a = true \/ b = true \/ c = true \/ d = true) as Hor.
  { intros [] [] [] []; cbn; intuition congruence. }
  assert (px p < 0 - size p * 3 -> isOffCanvas p = true) as Hleft.
  { intros H. apply Qltb_lt in H. apply Hor. auto. }
  assert (width (canvas p) + size p * 3 < px p -> isOffCanvas p = true) as Hright.
  { intros H. apply Qgtb_gt in H. apply Hor. auto. }
  assert (py p < 0 - size p * 3 -> isOffCanvas p = true) as Htop.
  { intros H. apply Qltb_lt in H. apply Hor. auto. }
  assert (height (canvas p) + size p * 3 < py p -> isOffCanvas p = true) as Hbottom.
  { intros H. apply Qgtb_gt in H. apply Hor. auto. }
  repeat split; auto.
  - rewrite (Hreset (Hleft H)), Hx.
    assert (px p < 0) as H0 by lra. apply Qltb_lt in H0. now rewrite H0.
  - rewrite (Hreset (Hright H)), Hx.
    assert (0 <= px p) as H0 by lra.
    assert (width (canvas p) < px p) as H1 by lra.
    apply Qltb_ge in H0. apply Qgtb_gt in H1. now rewrite H0, H1.
  - rewrite (Hreset (Htop H)), Hy.
    assert (py p < 0) as H0 by lra. apply Qltb_lt in H0. now rewrite H0.
  - rewrite (Hreset (Hbottom H)), Hy.
    assert (0 <= py p) as H0 by lra.
    assert (height (canvas p) < py p) as H1 by lra.
    apply Qltb_ge in H0. apply Qgtb_gt in H1. now rewrite H0, H1.
  - intros Hoff. rewrite (Hreset Hoff), Hs. apply setup_size.
Qed.

End Recycle.

(** The theorem at a particle at x = -1000 on a canvas 100 wide: it is
    recycled to x = 100 + 2 * 10. *)
Lemma recycle_opposite_edge_witness :
  let r := fst (@updatePosition approx_trig stray_particle (constant_rng (3 # 4))) in
  (isOffCanvas stray_particle = true /\ px r = 100 + size r * 2)
  /\ px r == 120.
Proof.
  split.
  - refine (proj1 (@recycle_opposite_edge approx_trig stray_particle
                     (constant_rng (3 # 4)) _ _ _) _);
      try discriminate; reflexivity.
  - reflexivity.
Defined.

(** The theorem at the same particle, whose y = -5 lies between the top
    edge and the margin of 30: the recycle triggered by x snaps y to
    100 + 2 * 10 as well. *)
Lemma reset_snaps_past_raw_edge_witness :
  let r := fst (@updatePosition approx_trig stray_particle (constant_rng (3 # 4))) in
  0 - size stray_particle * 3 < py stray_particle < 0
  /\ py r = 100 + size r * 2
  /\ py r == 120.
Proof.
  pose proof (@reset_snaps_past_raw_edge approx_trig stray_particle
                (constant_rng (3 # 4))) as (_ & _ & Hy & _ & _ & _ & Hup).
  cbv zeta. rewrite (Hup eq_refl).
  split; [split; reflexivity|].
  split; [apply Hy|]; reflexivity.
Defined.

(** * The render step and the shared context *)

Section RenderFacts.
Context {T : Trig}.

Lemma renderRotate_keeps (this : Sparticle) (ctx : Context2D) :
  globalAlpha (renderRotate this ctx) = globalAlpha ctx
  /\ globalCompositeOperation (renderRotate this ctx) = globalCompositeOperation ctx
  /\ drawn (renderRotate this ctx) = drawn ctx.
Proof. unfold renderRotate. now destruct (Settings.rotate _). Qed.

Lemma Qdiv_zero (a b : Q) : ~ b == 0 -> a / b == 0 -> a == 0.
Proof.
  intros Hb H.
  assert (a == a / b * b) as -> by (field; assumption).
  rewrite H. ring.
Qed.

(** A position divided by the scale is a number when the size is not zero. *)
Lemma position_finite (a s w : Q) :
  ~ s == 0 -> exists x, js_div (Fin a) (js_div (Fin s) (Fin w)) = Fin x.
Proof.
  intros Hs. unfold js_div.
  destruct (Qeq_bool w 0) eqn:Ew.
  - apply truthy_nonzero in Hs. unfold truthy in Hs.
    apply negb_true_iff in Hs. rewrite Hs. eauto.
  - destruct (Qeq_bool (s / w) 0) eqn:Eq; [|eauto].
    apply Qeq_bool_iff in Eq. apply Qeq_bool_neq in Ew.
    exfalso. apply Hs. now apply Qdiv_zero with (b := w).
Qed.

(** The context before [drawImage]: alpha and mode are the particle's. *)
Lemma before_draw (this : Sparticle) (ctx : Context2D) (scale : Num) :
  let ctx1 := ctx_scale scale scale
                (ctx_set_globalAlpha (clamp (alpha this) 0 1) (renderRotate this ctx)) in
  let ctx2 :=
    if negb (String.eqb (globalCompositeOperation ctx1)
               (Settings.composition (settings this)))
    then ctx_set_globalCompositeOperation (Settings.composition (settings this)) ctx1
    else ctx1 in
  globalAlpha ctx2 = clamp (alpha this) 0 1
  /\ globalCompositeOperation ctx2 = Settings.composition (settings this)
  /\ drawn ctx2 = drawn ctx.
Proof.
  destruct (renderRotate_keeps this ctx) as (Ha & Hc & Hd).
  cbv zeta.
  set (ctx1 := ctx_scale _ _ _).
  assert (globalAlpha ctx1 = clamp (alpha this) 0 1
          /\ drawn ctx1 = drawn ctx) as [Ha1 Hd1].
  { unfold ctx1, ctx_scale. destruct scale; cbn; auto. }
  destruct (String.eqb _ _) eqn:E; cbn.
  - apply String.eqb_eq in E. auto.
  - auto.
Qed.

(** What a returning [render] has done: the bitmap was in the cache, the
    draw calls issued, one unless the size is zero, ran under the particle's
    own alpha and composite mode, and the context is left with the identity
    transform and with that alpha and that mode. *)
Lemma render_returned (this q : Sparticle) (images : gmap string (gmap string Canvas))
    (ctx ctx' : Context2D) :
  render this images ctx = (Ok q, ctx') ->
  q = this
  /\ transform ctx' = identity
  /\ globalAlpha ctx' = clamp (alpha this) 0 1
  /\ globalCompositeOperation ctx' = Settings.composition (settings this)
  /\ exists calls,
       drawn ctx' = drawn ctx ++ calls
       /\ Forall (own_state this) calls
       /\ (~ size this == 0 -> length calls = 1%nat).
Proof.
  unfold render.
  destruct (images !! key (fillColor this)) as [byShape|]; [|discriminate].
  destruct (byShape !! key (shape this)) as [bmp|]; [|discriminate].
  set (scale := js_div (Fin (size this)) (Fin (width bmp))).
  destruct (before_draw this ctx scale) as (Ha & Hc & Hd).
  cbv zeta in Ha, Hc, Hd.
  set (ctx2 := if negb _ then _ else _) in *.
  unfold ctx_drawImage.
  destruct (js_div (Fin (px this)) scale) as [x| |] eqn:Ex;
    [destruct (js_div (Fin (py this)) scale) as [y| |] eqn:Ey|..].
  1: { destruct (Qeq_bool (width bmp) 0 || Qeq_bool (height bmp) 0); [discriminate|].
       intros [= <- <-]; cbn. rewrite Hd.
       repeat split; try assumption.
       eexists; repeat split. repeat constructor; assumption. }
  all: intros [= <- <-]; cbn; rewrite Hd; repeat split; try assumption;
    exists []; rewrite app_nil_r; repeat split; [constructor|];
    intros Hs; exfalso.
  1, 2: destruct (position_finite (py this) (size this) (width bmp) Hs) as [v Hv];
    fold scale in Hv; congruence.
  all: destruct (position_finite (px this) (size this) (width bmp) Hs) as [v Hv];
    fold scale in Hv; congruence.
Qed.

(** [render] returns whenever the cache holds a bitmap with an extent for
    the particle's colour and shape. *)
Lemma render_returns (this : Sparticle) (images : gmap string (gmap string Canvas))
    (ctx : Context2D) (byShape : gmap string Canvas) (bmp : Canvas) :
  images !! key (fillColor this) = Some byShape ->
  byShape !! key (shape this) = Some bmp ->
  ~ width bmp == 0 -> ~ height bmp == 0 ->
  exists ctx', render this images ctx = (Ok this, ctx').
Proof.
  intros H1 H2 Hw Hh. unfold render. rewrite H1, H2. unfold ctx_drawImage.
  apply truthy_nonzero in Hw, Hh. unfold truthy in Hw, Hh.
  apply negb_true_iff in Hw, Hh.
  set (scale := js_div (Fin (size this)) (Fin (width bmp))).
  destruct (js_div (Fin (px this)) scale); [destruct (js_div (Fin (py this)) scale)|..];
    rewrite ?Hw, ?Hh; cbn; eauto.
Qed.

(** C8. Whenever [render] returns, the transform of the drawing context is
    the identity, whatever the particle, the settings (rotation on or off,
    any scale) and the transform the call found; and [render] does return
    whenever the cache holds a bitmap with an extent for the particle. *)
Theorem render_leaves_identity (this : Sparticle)
    (images : gmap string (gmap string Canvas)) (ctx : Context2D) :
  (forall q ctx', render this images ctx = (Ok q, ctx') -> transform ctx' = identity)
  /\ (forall byShape bmp,
        images !! key (fillColor this) = Some byShape ->
        byShape !! key (shape this) = Some bmp ->
        ~ width bmp == 0 -> ~ height bmp == 0 ->
        exists ctx', render this images ctx = (Ok this, ctx')
                     /\ transform ctx' = identity).
Proof.
  split.
  - intros q ctx' H. now apply render_returned in H.
  - intros byShape bmp H1 H2 Hw Hh.
    destruct (render_returns this images ctx byShape bmp H1 H2 Hw Hh) as [ctx' H].
    exists ctx'. split; [assumption|]. now apply render_returned in H.
Qed.

(** C9 (as amended). A returning [render] resets the transform to the
    identity. Alpha and composite mode are not reset: they are set to the
    particle's own values before its bitmap is drawn and stay so after the
    call. The draw call of a particle therefore runs under that particle's
    alpha and mode, whatever an earlier [render] left in the context. *)
Theorem render_sets_alpha_and_composite (this q : Sparticle)
    (images : gmap string (gmap string Canvas)) (ctx ctx' : Context2D) :
  render this images ctx = (Ok q, ctx') ->
  transform ctx' = identity
  /\ globalAlpha ctx' = clamp (alpha this) 0 1
  /\ globalCompositeOperation ctx' = Settings.composition (settings this)
  /\ exists calls,
       drawn ctx' = drawn ctx ++ calls
       /\ Forall (own_state this) calls
       /\ (~ size this == 0 -> length calls = 1%nat).
Proof. intros H. now apply render_returned in H. Qed.

End RenderFacts.

(** The theorem C8 at the example particle. *)
Lemma render_leaves_identity_witness :
  exists ctx',
    after_example_render = (Ok (example_particle (example_settings false 5 1)), ctx')
    /\ transform ctx' = identity.
Proof.
  refine (proj2 (@render_leaves_identity approx_trig
    (example_particle (example_settings false 5 1)) example_cache fresh_context)
    {[ "circle" := {| width := 20; height := 20 |} ]}
    {| width := 20; height := 20 |} _ _ _ _).
  - reflexivity.
  - reflexivity.
  - discriminate.
  - discriminate.
Defined.

(** The theorem C9 at the example particle. *)
Lemma render_sets_alpha_and_composite_witness :
  globalAlpha (snd after_example_render) = clamp (1 / 2) 0 1
  /\ globalCompositeOperation (snd after_example_render) = "screen".
Proof.
  pose proof (@render_sets_alpha_and_composite approx_trig
    (example_particle (example_settings false 5 1))
    (example_particle (example_settings false 5 1))
    example_cache fresh_context (snd after_example_render) eq_refl) as H.
  split; [exact (proj1 (proj2 H)) | exact (proj1 (proj2 (proj2 H)))].
Defined.

(** C9 (as stated) fails: a fresh context has alpha 1 and mode
    "source-over"; after the example particle has been rendered the call
    has returned and the context holds alpha 1/2 and mode "screen". *)
Lemma render_leaves_alpha_and_composite :
  fst after_example_render = Ok (example_particle (example_settings false 5 1))
  /\ globalAlpha fresh_context == 1
  /\ globalCompositeOperation fresh_context = "source-over"
  /\ globalAlpha (snd after_example_render) == 1 # 2
  /\ globalCompositeOperation (snd after_example_render) = "screen"
  /\ ~ globalAlpha (snd after_example_render) == globalAlpha fresh_context
  /\ globalCompositeOperation (snd after_example_render)
     <> globalCompositeOperation fresh_context.
Proof.
  repeat split; try reflexivity.
  - intros H. vm_compute in H. discriminate H.
  - vm_compute. discriminate.
Qed.

(** * Construction *)

(** C7 (as amended). Construction fails with an exception only when the
    parent is an object that lacks its canvas or its settings. Without a
    parent the constructor does not fail: it writes one warning to the
    console, draws nothing from the random source, and the [new] expression
    completes with an object that has no property set. With a complete
    parent the object is the one [init] produces. *)
Theorem new_Sparticle_outcomes `{Trig} (g : Rng) :
  new_Sparticle None g = (Ok Bare, [warning], g)
  /\ (forall par, parent_canvas par = None ->
        fst (fst (new_Sparticle (Some par) g)) = Throw "TypeError")
  /\ (forall par cv, parent_canvas par = Some cv -> parent_settings par = None ->
        fst (fst (new_Sparticle (Some par) g)) = Throw "TypeError")
  /\ (forall par cv st, parent_canvas par = Some cv -> parent_settings par = Some st ->
        exists this,
          fst (new_Sparticle (Some par) g) = (Ok (Initialised this), [])
          /\ canvas this = cv /\ settings this = st
          /\ images this = parent_images par).
Proof.
  split; [reflexivity|]. repeat split.
  - intros par Hc. cbn. now rewrite Hc.
  - intros par cv Hc Hs. cbn. now rewrite Hc, Hs.
  - intros par cv st Hc Hs. cbn. rewrite Hc, Hs.
    unfold mbind, mret, Rand_bind, Rand_ret.
    set (blank := mkSparticle cv _ st _ _ _ _ _ _ _ _ _ _ _ _ _ _ _ _).
    assert (canvas (fst (init blank g)) = cv
            /\ settings (fst (init blank g)) = st
            /\ images (fst (init blank g)) = parent_images par) as Hk.
    { unfold init, mbind, mret, Rand_bind, Rand_ret.
      destruct (setup_keeps blank g) as (Hc' & Hi' & Hs' & _).
      destruct (setup blank g) as [q g']. cbn in Hc', Hi', Hs'.
      destruct q; cbn in *. subst.
      unfold getShapeOrImage, getColor, randomArray; run_rand.
      repeat (match goal with
              | |- context [if ?c then _ else _] => destruct c
              | |- context [match ?c with _ => _ end] => destruct c
              end; cbn); repeat split. }
    destruct (init blank g) as [this g']. cbn in *. eauto.
Qed.

(** The theorem at a parent without a canvas. *)
Lemma new_Sparticle_outcomes_witness :
  fst (fst (@new_Sparticle approx_trig
              (Some {| parent_canvas := None; parent_images := None;
                       parent_settings := None |})
              (constant_rng (3 # 4))))
  = Throw "TypeError".
Proof.
  refine (proj1 (proj2 (@new_Sparticle_outcomes approx_trig (constant_rng (3 # 4)))) _ _).
  reflexivity.
Defined.

(** C7 (as stated) fails: without a parent the constructor completes. It
    returns an object, none of whose properties is set, and no exception is
    raised. *)
Lemma new_Sparticle_without_parent_completes :
  fst (fst (@new_Sparticle approx_trig None (constant_rng (3 # 4)))) = Ok Bare
  /\ snd (fst (@new_Sparticle approx_trig None (constant_rng (3 # 4)))) = [warning]
  /\ (forall e, fst (fst (@new_Sparticle approx_trig None (constant_rng (3 # 4))))
                <> Throw e).
Proof. repeat split; discriminate. Qed.

(** * Scenarios *)

(** A particle at x = -1000 on a canvas 100 wide is off canvas, and one
    [update] recycles it to the right edge with its fresh size of 10. *)
Example update_recycles_stray_particle :
  let r := fst (@update approx_trig stray_particle (constant_rng (3 # 4))) in
  isOffCanvas stray_particle = true
  /\ px r == 120 /\ size r == 10 /\ isOffCanvas r = false.
Proof. repeat split. Qed.

(** Five twinkle steps from alpha = 1/1000 with a step of 1/2000: alpha
    decays through 0 to -1/2000, is put on 0, and then rises by 0.02 a
    step. *)
Example twinkle_trace :
  let p0 := set_alpha (1 # 1000) (example_particle (example_settings true 0 1)) in
  let p3 := updateAlpha (updateAlpha (updateAlpha p0)) in
  let p5 := updateAlpha (updateAlpha p3) in
  alpha p3 == - (1 # 2000) /\ resettingTwinkle p3 = false
  /\ alpha (updateAlpha p3) == 0 /\ resettingTwinkle (updateAlpha p3) = true
  /\ alpha p5 == 2 # 100.
Proof. repeat split. Qed.

(** Two particles rendered in turn on one context: the second draw runs
    under the second particle's alpha, and the context ends with it. *)
Example render_two_particles :
  let p1 := example_particle (example_settings false 5 1) in
  let p2 := set_alpha (1 # 4) p1 in
  let ctx1 := snd (@render approx_trig p1 example_cache fresh_context) in
  let ctx2 := snd (@render approx_trig p2 example_cache ctx1) in
  map with_alpha (drawn ctx2) = [clamp (1 / 2) 0 1; clamp (1 # 4) 0 1]
  /\ transform ctx2 = identity
  /\ globalAlpha ctx2 = clamp (1 # 4) 0 1.
Proof. repeat split. Qed.

(** * Further properties of the alpha machines *)

(** X1. [updateAlpha] writes alpha, and besides it only the alpha delta
    (fade mode may reverse it) and the twinkle flag: position, size,
    velocity, the other deltas, the choices and the settings are as before.
    The magnitude of the alpha delta never changes, and with an alpha speed
    of zero or less the particle is returned as it is. *)
Theorem updateAlpha_touches_alpha_only (p : Sparticle) :
  beyond_alpha (updateAlpha p) = beyond_alpha p
  /\ Qabs (da (updateAlpha p)) == Qabs (da p)
  /\ (Settings.twinkle (settings p) = true -> da (updateAlpha p) = da p)
  /\ (Settings.twinkle (settings p) = false ->
      resettingTwinkle (updateAlpha p) = resettingTwinkle p)
  /\ (Settings.alphaSpeed (settings p) <= 0 -> updateAlpha p = p).
Proof.
  destruct p as [c i s f fo sz d x y dd0 r al sh fc sc qx qy ro rt].
  unfold updateAlpha, updateFade, updateTwinkle, beyond_alpha, choice_fields; cbn.
  repeat split.
  - destruct (Qgtb _ 0); [|reflexivity].
    destruct (Settings.twinkle s).
    + destruct (Qltb al _); [reflexivity|]. now destruct (Qgtb al _).
    + now destruct (_ || _).
  - destruct (Qgtb _ 0); [|reflexivity].
    destruct (Settings.twinkle s).
    + destruct (Qltb al _); [reflexivity|]. now destruct (Qgtb al _).
    + destruct (_ || _); cbn; [apply Qabs_opp | reflexivity].
  - intros ->. destruct (Qgtb _ 0); [|reflexivity].
    destruct (Qltb al _); [reflexivity|]. now destruct (Qgtb al _).
  - intros ->. destruct (Qgtb _ 0); [|reflexivity]. now destruct (_ || _).
  - intros H. apply Qgtb_le in H. now rewrite H.
Qed.

(** The theorem at a particle whose settings have alpha speed 0. *)
Lemma updateAlpha_touches_alpha_only_witness :
  let s := example_settings true 0 1 in
  let frozen := {|
    Settings.minAlpha := 0; Settings.maxAlpha := 1; Settings.alphaSpeed := 0;
    Settings.alphaVariance := 1; Settings.twinkle := true;
    Settings.minSize := 10; Settings.maxSize := 10; Settings.speed := 0;
    Settings.parallax := 0; Settings.direction := 180;
    Settings.xVariance := 1; Settings.yVariance := 1; Settings.drift := 0;
    Settings.rotate := false; Settings.rotation := 0;
    Settings.color := NotArray; Settings.shape := NotArray;
    Settings.composition := "screen" |} in
  updateAlpha (example_particle frozen) = example_particle frozen
  /\ da (updateAlpha (example_particle s)) = 1.
Proof.
  cbv zeta. split.
  - refine (proj2 (proj2 (proj2 (proj2
      (updateAlpha_touches_alpha_only (example_particle _))))) _).
    discriminate.
  - refine (proj1 (proj2 (proj2
      (updateAlpha_touches_alpha_only (example_particle (example_settings true 0 1))))) _).
    reflexivity.
Defined.

Ltac case_ifs :=
  repeat (match goal with
          | |- context [if ?c then _ else _] => destruct c
          end; cbn).

Section Ticks.
Context {T : Trig}.

(** The move of an on-canvas particle writes the position and the rotation
    only, and draws nothing from the random source. *)
Lemma move_keeps (p : Sparticle) (g : Rng) :
  isOffCanvas p = false ->
  let q := fst (updatePosition p g) in
  canvas q = canvas p /\ images q = images p /\ settings q = settings p
  /\ frame q = frame p /\ frameoffset q = frameoffset p
  /\ motion_fields q = motion_fields p
  /\ alpha q = alpha p /\ choice_fields q = choice_fields p
  /\ resettingTwinkle q = resettingTwinkle p
  /\ snd (updatePosition p g) = g.
Proof.
  intros Hon. cbv zeta. unfold updatePosition. rewrite Hon. clear Hon.
  destruct p. unfold updateRotation, updateDrift, mret, Rand_ret; cbn.
  case_ifs; repeat split.
Qed.

(** [updatePosition], recycling or moving, leaves the canvas, the images,
    the settings, alpha, the choices and the twinkle flag alone. *)
Lemma updatePosition_keeps (p : Sparticle) (g : Rng) :
  let q := fst (updatePosition p g) in
  canvas q = canvas p /\ images q = images p /\ settings q = settings p
  /\ alpha q = alpha p /\ choice_fields q = choice_fields p
  /\ resettingTwinkle q = resettingTwinkle p.
Proof.
  cbv zeta. destruct (isOffCanvas p) eqn:Hoff.
  - unfold updatePosition. rewrite Hoff.
    destruct (reset_after_setup p g) as (_ & -> & -> & -> & -> & -> & _ & -> & _).
    destruct (setup_keeps p g) as (-> & -> & -> & -> & -> & _ & _ & _ & ->).
    repeat split.
  - destruct (move_keeps p g Hoff) as (-> & -> & -> & _ & _ & _ & -> & -> & -> & _).
    repeat split.
Qed.

Lemma set_frame_keeps (v : Q) (p : Sparticle) :
  canvas (set_frame v p) = canvas p /\ images (set_frame v p) = images p
  /\ settings (set_frame v p) = settings p /\ alpha (set_frame v p) = alpha p
  /\ choice_fields (set_frame v p) = choice_fields p
  /\ resettingTwinkle (set_frame v p) = resettingTwinkle p
  /\ isOffCanvas (set_frame v p) = isOffCanvas p.
Proof. destruct p. repeat split. Qed.

(** [update] is [updateAlpha] after [updatePosition] after the frame
    increment. *)
Lemma update_unfold (p : Sparticle) (g : Rng) :
  update p g =
  (updateAlpha (fst (updatePosition (set_frame (frame p + 1) p) g)),
   snd (updatePosition (set_frame (frame p + 1) p) g)).
Proof.
  unfold update, mbind, mret, Rand_bind, Rand_ret.
  now destruct (updatePosition _ g).
Qed.

(** Before [updateAlpha], one [update] has left settings and alpha as they
    were. *)
Lemma update_before_alpha (p : Sparticle) (g : Rng) :
  let q := fst (updatePosition (set_frame (frame p + 1) p) g) in
  settings q = settings p /\ alpha q = alpha p
  /\ resettingTwinkle q = resettingTwinkle p.
Proof.
  cbv zeta.
  destruct (updatePosition_keeps (set_frame (frame p + 1) p) g)
    as (_ & _ & -> & -> & _ & ->).
  destruct (set_frame_keeps (frame p + 1) p) as (_ & _ & -> & -> & _ & -> & _).
  repeat split.
Qed.

Lemma settings_update (p : Sparticle) (g : Rng) :
  settings (fst (update p g)) = settings p.
Proof.
  rewrite update_unfold. cbn. rewrite settings_updateAlpha.
  apply update_before_alpha.
Qed.

(** One fade step, or a step with the alpha animation off, keeps alpha in
    range. *)
Lemma updateAlpha_fade_keeps_range (p : Sparticle) :
  let s := settings p in
  Settings.twinkle s = false ->
  Settings.minAlpha s <= alpha p <= Settings.maxAlpha s ->
  Settings.minAlpha s <= alpha (updateAlpha p) <= Settings.maxAlpha s.
Proof.
  intros s Ht Hal.
  destruct (Qlt_le_dec 0 (Settings.alphaSpeed s)) as [Hs|Hs].
  - rewrite alpha_updateAlpha_fade by assumption. now apply updateFade_range.
  - unfold updateAlpha. apply Qgtb_le in Hs. fold s. now rewrite Hs.
Qed.

(** X2. In fade mode alpha never leaves [minAlpha, maxAlpha]: if it starts
    in range it is in range after any number of [update] calls, recycles
    included, whatever the random source yields. *)
Theorem fade_alpha_in_range_forever (n : nat) (p : Sparticle) (g : Rng) :
  let s := settings p in
  Settings.twinkle s = false ->
  Settings.minAlpha s <= alpha p <= Settings.maxAlpha s ->
  Settings.minAlpha s <= alpha (fst (update_n n p g)) <= Settings.maxAlpha s.
Proof.
  cbv zeta. revert p g. induction n as [|n IH]; intros p g Ht Hal.
  - exact Hal.
  - cbn. unfold mbind, Rand_bind.
    pose proof (settings_update p g) as Hset.
    assert (Settings.minAlpha (settings p) <= alpha (fst (update p g))
            <= Settings.maxAlpha (settings p)) as Hstep.
    { rewrite update_unfold. cbn.
      destruct (update_before_alpha p g) as (Hs & Ha & _).
      rewrite <- Hs. apply updateAlpha_fade_keeps_range.
      - now rewrite Hs.
      - now rewrite Hs, Ha. }
    destruct (update p g) as [q g']. cbn in *.
    rewrite <- Hset. apply IH; now rewrite Hset.
Qed.

End Ticks.

(** The theorem at twelve frames of a fading particle that starts far off
    canvas and is recycled on the way. *)
Lemma fade_alpha_in_range_forever_witness :
  let p := set_px (- (1000)) (example_particle (example_settings false 5 1)) in
  0 <= alpha (fst (@update_n approx_trig 12 p (constant_rng (3 # 4)))) <= 1.
Proof.
  refine (@fade_alpha_in_range_forever approx_trig 12
            (set_px (- (1000)) (example_particle (example_settings false 5 1)))
            (constant_rng (3 # 4)) _ _).
  - reflexivity.
  - split; discriminate.
Defined.

(** One twinkle step keeps alpha within one step of the range. *)
Lemma updateTwinkle_near_range (p : Sparticle) :
  let s := settings p in
  0 < Settings.alphaSpeed s ->
  Settings.minAlpha s <= Settings.maxAlpha s ->
  Settings.minAlpha s - twinkle_tick p <= fst (updateTwinkle p)
    <= Settings.maxAlpha s + 0.02 * Settings.alphaSpeed s.
Proof.
  intros s Hs Hmm.
  pose proof (twinkle_tick_nonneg p Hs) as Htick.
  destruct (updateTwinkle_clamps p) as [Hunder Hover]. fold s in Hunder, Hover.
  destruct (Qlt_le_dec (alpha p) (Settings.minAlpha s)) as [Hlo|Hlo].
  - destruct (Hunder Hlo) as [-> _]. lra.
  - destruct (Qlt_le_dec (Settings.maxAlpha s) (alpha p)) as [Hhi|Hhi].
    + destruct (Hover Hlo Hhi) as [-> _]. lra.
    + destruct (updateTwinkle_inside p (conj Hlo Hhi)) as [-> _]. fold s.
      destruct (resettingTwinkle p); lra.
Qed.

(** X3. In twinkle mode alpha never strays from [minAlpha, maxAlpha] by
    more than one step of the machine: with [alphaSpeed > 0] and
    [minAlpha <= maxAlpha], after any number of [updateAlpha] calls on a
    particle alpha is at least minAlpha less the particle's decay step and
    at most maxAlpha plus 0.02 x alphaSpeed, wherever it started. *)
Theorem twinkle_overshoot_bounded (n : nat) (p : Sparticle) :
  let s := settings p in
  let q := Nat.iter (S n) updateAlpha p in
  Settings.twinkle s = true ->
  0 < Settings.alphaSpeed s ->
  Settings.minAlpha s <= Settings.maxAlpha s ->
  Settings.minAlpha s - twinkle_tick p <= alpha q
    <= Settings.maxAlpha s + 0.02 * Settings.alphaSpeed s.
Proof.
  intros s q Ht Hs Hmm. subst q.
  assert (forall k, settings (Nat.iter k updateAlpha p) = s
                    /\ da (Nat.iter k updateAlpha p) = da p) as Hinv.
  { induction k as [|k [IHs IHd]]; [now split|].
    rewrite Nat.iter_succ, settings_updateAlpha. split; [assumption|].
    rewrite <- IHd.
    apply alpha_updateAlpha_twinkle; now rewrite IHs. }
  destruct (Hinv n) as [Hsn Hdn].
  rewrite Nat.iter_succ. set (pn := Nat.iter n updateAlpha p) in *.
  assert (twinkle_tick pn = twinkle_tick p) as Htk
    by (unfold twinkle_tick; now rewrite Hsn, Hdn).
  destruct (alpha_updateAlpha_twinkle pn) as (-> & _ & _); try now rewrite Hsn.
  pose proof (updateTwinkle_near_range pn) as H.
  rewrite Hsn, Htk in H. now apply H.
Qed.

(** The theorem at a twinkling particle after seven steps. *)
Lemma twinkle_overshoot_bounded_witness :
  let p := example_particle (example_settings true 0 1) in
  0 - twinkle_tick p <= alpha (Nat.iter 7 updateAlpha p) <= 1 + 0.02 * 1.
Proof.
  refine (twinkle_overshoot_bounded 6 (example_particle (example_settings true 0 1)) _ _ _).
  - reflexivity.
  - reflexivity.
  - discriminate.
Defined.

(** * Further properties of recycling and motion *)

Lemma isOffCanvas_inside (p : Sparticle) :
  0 - size p * 3 <= px p <= width (canvas p) + size p * 3 ->
  0 - size p * 3 <= py p <= height (canvas p) + size p * 3 ->
  isOffCanvas p = false.
Proof.
  intros [Hx1 Hx2] [Hy1 Hy2]. unfold isOffCanvas.
  apply Qltb_ge in Hx1, Hy1. apply Qgtb_le in Hx2, Hy2.
  now rewrite Hx1, Hx2, Hy1, Hy2.
Qed.

Lemma round_nonneg (x : Q) : 0 <= x -> 0 <= round x.
Proof.
  intros Hx. unfold round.
  assert (0 <= Qfloor (x + 0.5))%Z as Hz.
  { change 0%Z with (Qfloor 0). apply Qfloor_resp_le. lra. }
  change 0 with (inject_Z 0). now rewrite <- Zle_Qle.
Qed.

Lemma round_monotone (x y : Q) : x <= y -> round x <= round y.
Proof.
  intros Hxy. unfold round.
  assert (Qfloor (x + 0.5) <= Qfloor (y + 0.5))%Z as Hz
    by (apply Qfloor_resp_le; lra).
  now rewrite <- Zle_Qle.
Qed.

Section Hysteresis.
Context {T : Trig}.

(** The size of a new lifecycle lies between the rounded bounds of the
    settings. *)
Lemma setup_size_range (p : Sparticle) (g : Rng) :
  let s := settings p in
  unit_draws g ->
  Settings.minSize s <= Settings.maxSize s ->
  round (Settings.minSize s) <= size (fst (setup p g)) <= round (Settings.maxSize s).
Proof.
  intros s Hg Hmm. rewrite setup_size. fold s.
  assert (unit_draws (advance g)) as Hg' by (intros n; apply Hg).
  destruct (random_range _ _ (advance g) Hg' Hmm) as [[Hlo Hhi] _].
  split; now apply round_monotone.
Qed.

(** X4. A recycle never has to be repeated: for sizes configured with
    [0 <= minSize <= maxSize], a canvas of non-negative extent and outcomes
    of the random source in [0, 1), the particle [reset] returns is not off
    canvas, whatever the position [reset] found. The margins of two sizes
    at placement and three sizes at detection leave room for that. *)
Theorem reset_lands_on_canvas (p : Sparticle) (g : Rng) :
  let s := settings p in
  unit_draws g ->
  0 <= Settings.minSize s <= Settings.maxSize s ->
  0 <= width (canvas p) -> 0 <= height (canvas p) ->
  isOffCanvas (fst (reset p g)) = false.
Proof.
  intros s Hg [Hmin Hmm] Hw Hh.
  destruct (reset_position p g) as (Hx & Hy & Hs).
  destruct (reset_after_setup p g) as (_ & Hc & _).
  destruct (setup_keeps p g) as (Hc' & _).
  destruct (setup_size_range p g Hg Hmm) as [Hlo _]. fold s in Hlo.
  pose proof (round_nonneg _ Hmin) as Hr.
  set (r := fst (reset p g)) in *.
  assert (0 <= size r) as Hsz by (rewrite Hs; lra).
  assert (canvas r = canvas p) as Hcr by now rewrite Hc, Hc'.
  apply isOffCanvas_inside; rewrite Hcr.
  - rewrite Hx. split_cmp (Qltb (px p) 0); [lra|].
    split_cmp (Qgtb (px p) (width (canvas p))); lra.
  - rewrite Hy. split_cmp (Qltb (py p) 0); [lra|].
    split_cmp (Qgtb (py p) (height (canvas p))); lra.
Qed.

End Hysteresis.

(** The theorem at the particle far off the left edge. *)
Lemma reset_lands_on_canvas_witness :
  isOffCanvas stray_particle = true
  /\ isOffCanvas (fst (@reset approx_trig stray_particle (constant_rng (3 # 4)))) = false.
Proof.
  split; [reflexivity|].
  refine (@reset_lands_on_canvas approx_trig stray_particle (constant_rng (3 # 4)) _ _ _ _).
  - apply unit_draws_constant. split; [discriminate | reflexivity].
  - split; discriminate.
  - discriminate.
  - discriminate.
Defined.

Lemma updateAlpha_keeps_beyond (p : Sparticle) :
  beyond_alpha (updateAlpha p) = beyond_alpha p.
Proof.
  destruct p as [c i s f fo sz d x y dd0 r al sh fc sc qx qy ro rt].
  unfold updateAlpha, updateFade, updateTwinkle, beyond_alpha, choice_fields; cbn.
  destruct (Qgtb _ 0); [|reflexivity].
  destruct (Settings.twinkle s).
  - destruct (Qltb al _); [reflexivity|]. now destruct (Qgtb al _).
  - now destruct (_ || _).
Qed.

Lemma updateAlpha_keeps (p : Sparticle) :
  let q := updateAlpha p in
  frame q = frame p /\ size q = size p /\ dx q = dx p /\ dy q = dy p
  /\ dd q = dd p /\ dr q = dr p /\ choice_fields q = choice_fields p
  /\ px q = px p /\ py q = py p /\ rotation q = rotation p
  /\ canvas q = canvas p.
Proof.
  pose proof (updateAlpha_keeps_beyond p) as H. unfold beyond_alpha in H.
  cbv zeta. destruct (updateAlpha p), p; cbn in *.
  injection H as -> -> -> -> -> -> -> -> -> -> -> -> -> ->.
  repeat split; assumption.
Qed.

Section Frames.
Context {T : Trig}.

(** [setup] restarts the frame counter and draws between four and nine
    outcomes, in order, from the random source. *)
Lemma setup_draws (p : Sparticle) (g : Rng) :
  frame (fst (setup p g)) = 0
  /\ draws (snd (setup p g)) = draws g
  /\ (cursor g + 4 <= cursor (snd (setup p g)) <= cursor g + 9)%nat.
Proof.
  destruct p; cbn.
  unfold setup, getAlphaDelta, getDeltaX, getDeltaY, getDeltaVariance,
    getDriftDelta, getRotationDelta, getDelta, or_else; run_rand.
  case_ifs; repeat split; lia.
Qed.

Lemma reset_frame (p : Sparticle) (g : Rng) :
  frame (fst (reset p g)) = frame (fst (setup p g)).
Proof.
  unfold reset, mbind, mret, Rand_bind, Rand_ret.
  destruct (setup p g) as [q g']. destruct q; cbn.
  case_ifs; reflexivity.
Qed.

(** X5. The frame counter counts the frames of the current lifecycle. An
    [update] of a particle that is on canvas adds one to the counter, draws
    nothing from the random source and keeps size, velocity, drift and
    rotation deltas and the colour and shape choices. An [update] of a
    particle that is off canvas starts a new lifecycle: the counter is 0
    again, and between four and nine outcomes are drawn. *)
Theorem update_frame_counter (p : Sparticle) (g : Rng) :
  let q := fst (update p g) in
  (isOffCanvas p = false ->
     frame q = frame p + 1
     /\ snd (update p g) = g
     /\ (size q, dx q, dy q, dd q, dr q) = (size p, dx p, dy p, dd p, dr p)
     /\ choice_fields q = choice_fields p)
  /\ (isOffCanvas p = true ->
     frame q = 0
     /\ draws (snd (update p g)) = draws g
     /\ (cursor g + 4 <= cursor (snd (update p g)) <= cursor g + 9)%nat).
Proof.
  cbv zeta. rewrite update_unfold. cbn.
  destruct (updateAlpha_keeps (fst (updatePosition (set_frame (frame p + 1) p) g)))
    as (Hf & Hsz & Hdx & Hdy & Hdd & Hdr & Hch & _).
  destruct (set_frame_keeps (frame p + 1) p) as (_ & _ & _ & _ & Hch0 & _ & Hoff0).
  split; intros Hoff; rewrite <- Hoff0 in Hoff.
  - destruct (move_keeps _ g Hoff) as (_ & _ & _ & Hfr & _ & Hm & _ & Hc & _ & Hg).
    unfold motion_fields in Hm. injection Hm as Hm1 _ Hm3 Hm4 Hm5 Hm6.
    rewrite Hf, Hsz, Hdx, Hdy, Hdd, Hdr, Hch, Hfr, Hm1, Hm3, Hm4, Hm5, Hm6, Hc, Hch0, Hg.
    destruct p; repeat split.
  - unfold updatePosition. rewrite Hoff.
    unfold updatePosition in Hf. rewrite Hoff in Hf.
    rewrite Hf, reset_frame.
    destruct (reset_after_setup (set_frame (frame p + 1) p) g)
      as (_ & _ & _ & _ & _ & _ & _ & _ & ->).
    destruct (setup_draws (set_frame (frame p + 1) p) g) as (-> & -> & Hcur).
    repeat split; lia.
Qed.

End Frames.

(** The theorem at the example particle, which is on canvas. *)
Lemma update_frame_counter_witness :
  let p := example_particle (example_settings false 5 1) in
  let g := constant_rng (3 # 4) in
  frame (fst (@update approx_trig p g)) = 0 + 1
  /\ snd (@update approx_trig p g) = g.
Proof.
  cbv zeta.
  destruct (proj1 (@update_frame_counter approx_trig
                     (example_particle (example_settings false 5 1))
                     (constant_rng (3 # 4))) eq_refl) as (Hf & Hg & _).
  split; [exact Hf | exact Hg].
Defined.

Lemma window_true (a b d : Q) : Qgtb d a && Qltb d b = true <-> a < d < b.
Proof. rewrite andb_true_iff, Qgtb_gt, Qltb_lt. reflexivity. Qed.

Lemma vertical_window (dir : Q) :
  (Qgtb dir 150 && Qltb dir 210) || (Qgtb dir 330 && Qltb dir 390)
  || (Qgtb dir (-30) && Qltb dir 30) = true <-> near_vertical dir.
Proof.
  unfold near_vertical. rewrite !orb_true_iff, !window_true. tauto.
Qed.

Lemma horizontal_window (dir : Q) :
  (Qgtb dir 60 && Qltb dir 120) || (Qgtb dir 240 && Qltb dir 300) = true
  <-> near_horizontal dir.
Proof.
  unfold near_horizontal. rewrite !orb_true_iff, !window_true. tauto.
Qed.

(** X6. Drift moves a particle across its direction of travel, never along
    it, and on one axis at most: [updateDrift] writes [px] only when the
    direction is somewhat vertical and [py] only when it is somewhat
    horizontal, and these windows do not meet. In the gaps between the
    windows (as at 45 degrees, or at exactly 30), and whenever the drift or
    the speed setting is 0, the particle is returned as it is. Nothing but
    [px] and [py] is ever written. *)
Theorem updateDrift_one_axis `{Trig} (p : Sparticle) :
  let s := settings p in
  let dir := Settings.direction s in
  let q := updateDrift p in
  q = set_py (py q) (set_px (px q) p)
  /\ (px q <> px p -> near_vertical dir /\ py q = py p)
  /\ (py q <> py p -> near_horizontal dir /\ px q = px p)
  /\ (~ near_vertical dir -> ~ near_horizontal dir -> q = p)
  /\ (Settings.drift s == 0 \/ Settings.speed s == 0 -> q = p).
Proof.
  intros s dir q. subst q.
  pose proof (vertical_window dir) as Hv.
  pose proof (horizontal_window dir) as Hh.
  destruct p as [c i st f fo sz d x y dd0 r al sh fc sc qx qy ro rt].
  cbn in s. subst s. unfold updateDrift. cbn. fold dir.
  assert (truthy (Settings.drift st) && truthy (Settings.speed st) = true ->
          ~ (Settings.drift st == 0 \/ Settings.speed st == 0)) as Hon'.
  { intros Hon. apply andb_true_iff in Hon as [Hd Hs].
    apply truthy_nonzero in Hd, Hs. tauto. }
  destruct (truthy (Settings.drift st) && truthy (Settings.speed st)).
  - specialize (Hon' eq_refl).
    destruct ((Qgtb dir 150 && Qltb dir 210) || (Qgtb dir 330 && Qltb dir 390)
              || (Qgtb dir (-30) && Qltb dir 30)).
    + assert (near_vertical dir) as Hnv by now apply Hv.
      cbn. split; [reflexivity|]. split; [now split|].
      split; [intros Hc; now contradiction Hc|]. split; [tauto|tauto].
    + assert (~ near_vertical dir) as Hnv
        by (intros Hn; apply Hv in Hn; congruence).
      destruct ((Qgtb dir 60 && Qltb dir 120) || (Qgtb dir 240 && Qltb dir 300)).
      * assert (near_horizontal dir) as Hnh by now apply Hh.
        cbn. split; [reflexivity|]. split; [intros Hc; now contradiction Hc|].
        split; [now split|]. split; [tauto|tauto].
      * cbn. split; [reflexivity|]. split; [intros Hc; now contradiction Hc|].
        split; [intros Hc; now contradiction Hc|]. split; reflexivity.
  - cbn. split; [reflexivity|]. split; [intros Hc; now contradiction Hc|].
    split; [intros Hc; now contradiction Hc|]. split; reflexivity.
Qed.

(** The theorem at a particle heading to 45 degrees, in a gap: no drift. *)
Lemma updateDrift_one_axis_witness :
  let s := {|
    Settings.minAlpha := 0; Settings.maxAlpha := 1; Settings.alphaSpeed := 1;
    Settings.alphaVariance := 1; Settings.twinkle := false;
    Settings.minSize := 10; Settings.maxSize := 10; Settings.speed := 5;
    Settings.parallax := 0; Settings.direction := 45;
    Settings.xVariance := 1; Settings.yVariance := 1; Settings.drift := 2;
    Settings.rotate := false; Settings.rotation := 0;
    Settings.color := NotArray; Settings.shape := NotArray;
    Settings.composition := "screen" |} in
  @updateDrift approx_trig (set_dd 2 (example_particle s))
  = set_dd 2 (example_particle s).
Proof.
  cbv zeta.
  refine (proj1 (proj2 (proj2 (proj2
    (@updateDrift_one_axis approx_trig (set_dd 2 (example_particle _)))))) _ _).
  - unfold near_vertical; cbn. lra.
  - unfold near_horizontal; cbn. lra.
Defined.

(** * Further properties of the sampled parameters *)

(** X7. The base delta of a particle. With a configured speed of 0 it is 0,
    whatever the parallax and the size: parallax needs a speed to act on.
    With parallax 0 it is a tenth of the speed. With a speed and a parallax
    other than 0, the deltas of two particles under the same settings
    differ by [parallax / 50] per unit of size, whatever the signs. With a
    speed and a parallax above 0 and sizes of at least 0, the deltas are
    positive and the larger particle has the larger one: it is the
    faster. *)
Theorem getDelta_parallax (p1 p2 : Sparticle) :
  let s := settings p1 in
  settings p2 = s ->
  (Settings.speed s == 0 -> getDelta p1 == 0)
  /\ (Settings.parallax s == 0 -> getDelta p1 == Settings.speed s * 0.1)
  /\ (~ Settings.speed s == 0 -> ~ Settings.parallax s == 0 ->
      getDelta p2 - getDelta p1 == (size p2 - size p1) * Settings.parallax s / 50)
  /\ (0 < Settings.speed s -> 0 < Settings.parallax s ->
      0 <= size p1 < size p2 ->
      0 < getDelta p1 < getDelta p2).
Proof.
  intros s Hs. unfold getDelta. rewrite Hs. fold s.
  split; [|split; [|split]].
  - intros H0. apply truthy_zero in H0 as Ht. rewrite Ht. cbn. rewrite H0. ring.
  - intros H0. apply truthy_zero in H0 as Ht. rewrite Ht, andb_false_r.
    reflexivity.
  - intros Hsp Hpa. apply truthy_nonzero in Hsp, Hpa.
    rewrite Hsp, Hpa. cbn. field.
  - intros Hsp Hpa [Hz Hlt].
    assert (truthy (Settings.speed s) = true) as Ht1
      by (apply truthy_nonzero; lra).
    assert (truthy (Settings.parallax s) = true) as Ht2
      by (apply truthy_nonzero; lra).
    rewrite Ht1, Ht2. cbn.
    assert (size p1 * Settings.parallax s / 50 < size p2 * Settings.parallax s / 50)
      as Hinc by (apply Qmult_lt_compat_r; [reflexivity | nra]).
    assert (0 <= size p1 * Settings.parallax s / 50) as Hnn
      by (apply Qle_shift_div_l; [reflexivity | nra]).
    split; lra.
Qed.

(** The theorem at two particles of sizes 10 and 20 with speed 5, parallax 1. *)
Lemma getDelta_parallax_witness :
  let s := {|
    Settings.minAlpha := 0; Settings.maxAlpha := 1; Settings.alphaSpeed := 1;
    Settings.alphaVariance := 1; Settings.twinkle := false;
    Settings.minSize := 10; Settings.maxSize := 20; Settings.speed := 5;
    Settings.parallax := 1; Settings.direction := 180;
    Settings.xVariance := 0; Settings.yVariance := 0; Settings.drift := 0;
    Settings.rotate := false; Settings.rotation := 0;
    Settings.color := NotArray; Settings.shape := NotArray;
    Settings.composition := "screen" |} in
  0 < getDelta (example_particle s) < getDelta (set_size 20 (example_particle s)).
Proof.
  cbv zeta.
  refine (proj2 (proj2 (proj2 (getDelta_parallax (example_particle _)
            (set_size 20 (example_particle _)) eq_refl))) _ _ _).
  - reflexivity.
  - reflexivity.
  - split; [discriminate | reflexivity].
Defined.

Section Samples.
Context {T : Trig}.

(** The phase and the drift delta [setup] stores, each in terms of the one
    outcome it is sampled from. *)
Lemma setup_phase_and_drift (p : Sparticle) (g : Rng) :
  let drift := Settings.drift (settings p) in
  let q := fst (setup p g) in
  unit_draws g ->
  frameoffset q = round (0 + (360 - 0) * draws g (cursor g))
  /\ exists u, 0 <= u < 1
       /\ dd q = if negb (truthy drift) then 0
                 else drift - drift / 2 + (drift + drift / 2 - (drift - drift / 2)) * u.
Proof.
  intros drift q Hg. subst drift q. destruct p; cbn.
  unfold setup, getAlphaDelta, getDeltaX, getDeltaY, getDeltaVariance,
    getDriftDelta, getRotationDelta, getDelta, or_else; run_rand.
  case_ifs; (split; [reflexivity|]); eexists; (split; [apply Hg|]);
    reflexivity.
  Unshelve. all: exact O.
Qed.

(** X8. What [setup] samples stays within the settings: for outcomes of the
    random source in [0, 1), sizes configured with [minSize <= maxSize] and
    a drift of at least 0, the new size is a whole number between the
    rounded minSize and maxSize, the phase is a whole number between 0 and
    360, and the drift delta lies between half the drift and one and a half
    times the drift (so it is 0 when the drift is 0). *)
Theorem setup_within_settings (p : Sparticle) (g : Rng) :
  let s := settings p in
  let q := fst (setup p g) in
  unit_draws g ->
  Settings.minSize s <= Settings.maxSize s ->
  0 <= Settings.drift s ->
  (round (Settings.minSize s) <= size q <= round (Settings.maxSize s)
   /\ exists z, size q = inject_Z z)
  /\ (0 <= frameoffset q <= 360 /\ exists z, frameoffset q = inject_Z z)
  /\ Settings.drift s / 2 <= dd q <= 3 * Settings.drift s / 2.
Proof.
  intros s q Hg Hmm Hd. subst q.
  destruct (setup_phase_and_drift p g Hg) as (Hfo & u & Hu & Hdd).
  fold s in Hdd. split; [|split].
  - split; [now apply setup_size_range|].
    rewrite setup_size. unfold round. eauto.
  - rewrite Hfo. split; [|unfold round; eauto].
    pose proof (Hg (cursor g)) as Hc.
    split.
    + apply round_nonneg. nra.
    + apply Qle_trans with (round 360); [|discriminate].
      apply round_monotone. nra.
  - rewrite Hdd. destruct (truthy (Settings.drift s)) eqn:E; cbn.
    + assert (Settings.drift s - Settings.drift s / 2
              + (Settings.drift s + Settings.drift s / 2
                 - (Settings.drift s - Settings.drift s / 2)) * u
              == Settings.drift s / 2 + Settings.drift s * u) as -> by field.
      assert (0 <= Settings.drift s * u <= Settings.drift s) by (split; nra).
      assert (Settings.drift s / 2 == Settings.drift s * (1 # 2)) as -> by field.
      assert (3 * Settings.drift s / 2 == 3 * Settings.drift s * (1 # 2)) as ->
        by field.
      split; lra.
    + apply truthy_zero in E. rewrite E. split; discriminate.
Qed.

End Samples.

(** The theorem at sizes from 10 to 10 and drift 0. *)
Lemma setup_within_settings_witness :
  let q := fst (@setup approx_trig (example_particle (example_settings false 5 1))
                  (constant_rng (3 # 4))) in
  round 10 <= size q <= round 10.
Proof.
  refine (proj1 (proj1 (@setup_within_settings approx_trig
    (example_particle (example_settings false 5 1)) (constant_rng (3 # 4)) _ _ _))).
  - apply unit_draws_constant. split; [discriminate | reflexivity].
  - discriminate.
  - discriminate.
Defined.

(** * Further properties of the colour and shape choices *)

(** A pick from a non-empty array is one of its entries. *)
Lemma randomArray_member {A} (l : list A) (g : Rng) :
  unit_draws g -> l <> [] ->
  exists x, fst (randomArray l g) = Some x /\ In x l.
Proof.
  intros Hg Hl. unfold randomArray, mbind, Rand_bind.
  rewrite random_value. unfold mret, Rand_ret. cbn [fst].
  set (n := Z.of_nat (length l)).
  set (x := 0 + (inject_Z n - 0) * draws g (cursor g)).
  pose proof (Hg (cursor g)) as Hu.
  assert (0 < n)%Z as Hn by (destruct l; [congruence | subst n; cbn; lia]).
  assert (0 < inject_Z n) as Hn' by (change 0 with (inject_Z 0); now rewrite <- Zlt_Qlt).
  assert (0 <= x < inject_Z n) as [Hx0 Hxn] by (subst x; split; nra).
  assert (0 <= Qfloor x)%Z as Hk0
    by (change 0%Z with (Qfloor 0); now apply Qfloor_resp_le).
  assert (Qfloor x < n)%Z as Hkn.
  { rewrite Zlt_Qlt. apply Qle_lt_trans with x; [apply Qfloor_le | assumption]. }
  assert (Z.to_nat (Qfloor x) < length l)%nat as Hlt by (subst n; lia).
  destruct (nth_error l (Z.to_nat (Qfloor x))) as [a|] eqn:E.
  - exists a. split; [reflexivity|]. now apply nth_error_In in E.
  - apply nth_error_None in E. lia.
Qed.

Lemma randomArray_empty {A} (g : Rng) : fst (randomArray (@nil A) g) = None.
Proof.
  unfold randomArray, mbind, Rand_bind. rewrite random_value.
  unfold mret, Rand_ret. cbn [fst]. now destruct (Z.to_nat _).
Qed.

(** X9. Where the colour and the shape of a particle come from. For
    outcomes of the random source in [0, 1): [getColor] returns an entry of
    the colour array, and undefined when the array is empty.
    [getShapeOrImage] looks at the images when the first shape is "image"
    and the parent has an images array: it returns an entry of the images,
    and undefined when that array is empty, whatever shapes are configured;
    in every other case it returns an entry of the shape array, and
    undefined when that is empty. When the setting is not an array the
    result is undefined and nothing is drawn from the random source. *)
Theorem choices_come_from_settings (this : Sparticle) (g : Rng) :
  let s := settings this in
  unit_draws g ->
  (forall l, Settings.color s = IsArray l ->
     (l <> [] -> exists c, fst (getColor this g) = Some c /\ In c l)
     /\ (l = [] -> fst (getColor this g) = None))
  /\ (forall l imgs, Settings.shape s = IsArray l ->
        head l = Some "image" -> images this = Some imgs ->
        (imgs <> [] -> exists c, fst (getShapeOrImage this g) = Some c /\ In c imgs)
        /\ (imgs = [] -> fst (getShapeOrImage this g) = None))
  /\ (forall l, Settings.shape s = IsArray l ->
        head l <> Some "image" \/ images this = None ->
        (l <> [] -> exists c, fst (getShapeOrImage this g) = Some c /\ In c l)
        /\ (l = [] -> fst (getShapeOrImage this g) = None))
  /\ (Settings.color s = NotArray -> getColor this g = (None, g))
  /\ (Settings.shape s = NotArray -> getShapeOrImage this g = (None, g)).
Proof.
  intros s Hg. split; [|split; [|split; [|split]]].
  - intros l Hc. unfold getColor. fold s. rewrite Hc. split.
    + now apply randomArray_member.
    + intros ->. apply randomArray_empty.
  - intros l imgs Hc Hh Hi. unfold getShapeOrImage. fold s.
    rewrite Hc, Hh, Hi. cbn. split.
    + now apply randomArray_member.
    + intros ->. apply randomArray_empty.
  - intros l Hc Hno. unfold getShapeOrImage. fold s. rewrite Hc.
    assert (match head l, images this with
            | Some first, Some imgs =>
                if String.eqb first "image" then randomArray imgs else randomArray l
            | _, _ => randomArray l
            end = randomArray l) as ->.
    { destruct (head l) as [first|] eqn:Eh; [|reflexivity].
      destruct (images this) as [imgs|]; [|reflexivity].
      destruct (String.eqb first "image") eqn:E; [|reflexivity].
      apply String.eqb_eq in E. subst first.
      destruct Hno as [Hno|Hno]; congruence. }
    split.
    + now apply randomArray_member.
    + intros ->. apply randomArray_empty.
  - intros Hc. unfold getColor. fold s. now rewrite Hc.
  - intros Hc. unfold getShapeOrImage. fold s. now rewrite Hc.
Qed.

(** The theorem at the colours "red" and "blue". *)
Lemma choices_come_from_settings_witness :
  exists c,
    fst (getColor (example_particle (example_settings false 5 1))
           (constant_rng (3 # 4))) = Some c
    /\ In c ["red"; "blue"].
Proof.
  refine (proj1 (proj1 (choices_come_from_settings
    (example_particle (example_settings false 5 1)) (constant_rng (3 # 4)) _)
    ["red"; "blue"] eq_refl) _).
  - apply unit_draws_constant. split; [discriminate | reflexivity].
  - discriminate.
Defined.

(** * Further properties of a new particle *)

Lemma round_near (x : Q) : x - 0.5 <= round x <= x + 0.5.
Proof.
  unfold round.
  pose proof (Qfloor_le (x + 0.5)) as Hle.
  pose proof (Qlt_floor (x + 0.5)) as Hlt.
  rewrite inject_Z_plus in Hlt. change (inject_Z 1) with 1 in Hlt.
  split; lra.
Qed.

Section Birth.
Context {T : Trig}.

(** What [init] stores, each value in terms of the outcome it is sampled
    from. *)
Lemma init_samples (p : Sparticle) (g : Rng) :
  let s := settings p in
  let q := fst (init p g) in
  let sz := size (fst (setup p g)) in
  unit_draws g ->
  size q = sz /\ canvas q = canvas p /\ settings q = s /\ frame q = 0
  /\ (exists u, 0 <= u < 1
        /\ alpha q = Settings.minAlpha s
                     + (Settings.maxAlpha s - Settings.minAlpha s) * u)
  /\ (exists u, 0 <= u < 1
        /\ px q = round (- sz * 2 + (width (canvas p) + sz - - sz * 2) * u))
  /\ (exists u, 0 <= u < 1
        /\ py q = round (- sz * 2 + (height (canvas p) + sz - - sz * 2) * u))
  /\ (Settings.rotate s = false -> rotation q = 0).
Proof.
  intros s q sz Hg. subst s q sz.
  destruct (setup_keeps p g) as (Hc & _ & Hs & _).
  destruct (setup_draws p g) as (Hf & Hd & _).
  unfold init, mbind, mret, Rand_bind, Rand_ret.
  destruct (setup p g) as [q0 [d0 c0]]. cbn [fst snd] in *.
  destruct q0; cbn in Hc, Hs, Hf, Hd. subst.
  unfold getShapeOrImage, getColor, randomArray; run_rand.
  destruct (Settings.shape (settings p)) as [shl|];
    [destruct (head shl) as [first|];
       [destruct images0 as [imgs|]; [destruct (String.eqb first "image")|]|]|];
    destruct (Settings.color (settings p));
    destruct (Settings.rotate (settings p)); cbn;
    repeat split; try discriminate;
    eexists; (split; [apply Hg | reflexivity]).
Qed.

(** X10. A particle is born well formed. For outcomes of the random source
    in [0, 1), sizes configured with [1 <= minSize <= maxSize], alphas with
    [minAlpha <= maxAlpha] and a canvas of non-negative extent, [init]
    leaves alpha within [minAlpha, maxAlpha], a position within the canvas
    widened by two sizes before and one size after (up to rounding), hence
    a particle that is not off canvas, a frame counter of 0, and a rotation
    of 0 when rotation is switched off. *)
Theorem init_well_formed (p : Sparticle) (g : Rng) :
  let s := settings p in
  let q := fst (init p g) in
  unit_draws g ->
  1 <= Settings.minSize s <= Settings.maxSize s ->
  Settings.minAlpha s <= Settings.maxAlpha s ->
  0 <= width (canvas p) -> 0 <= height (canvas p) ->
  Settings.minAlpha s <= alpha q <= Settings.maxAlpha s
  /\ (- size q * 2 - 0.5 <= px q <= width (canvas p) + size q + 0.5
      /\ - size q * 2 - 0.5 <= py q <= height (canvas p) + size q + 0.5)
  /\ isOffCanvas q = false
  /\ frame q = 0
  /\ (Settings.rotate s = false -> rotation q = 0).
Proof.
  intros s q Hg [Hmin Hmm] Hal Hw Hh.
  destruct (init_samples p g Hg)
    as (Hsz & Hc & Hs & Hf & (u & Hu & Ha) & (ux & Hux & Hx) & (uy & Huy & Hy) & Hr).
  fold s q in Hsz, Hc, Hs, Hf, Ha, Hx, Hy, Hr.
  destruct (setup_size_range p g Hg Hmm) as [Hlo _]. fold s in Hlo.
  rewrite <- Hsz in Hlo, Hx, Hy.
  assert (1 <= size q) as Hone.
  { apply Qle_trans with (round (Settings.minSize s)); [|assumption].
    apply Qle_trans with (round 1); [discriminate|]. now apply round_monotone. }
  assert (- size q * 2 - 0.5 <= px q <= width (canvas p) + size q + 0.5) as Hpx.
  { rewrite Hx.
    set (X := - size q * 2 + (width (canvas p) + size q - - size q * 2) * ux).
    assert (- size q * 2 <= X <= width (canvas p) + size q) by (subst X; split; nra).
    pose proof (round_near X). lra. }
  assert (- size q * 2 - 0.5 <= py q <= height (canvas p) + size q + 0.5) as Hpy.
  { rewrite Hy.
    set (Y := - size q * 2 + (height (canvas p) + size q - - size q * 2) * uy).
    assert (- size q * 2 <= Y <= height (canvas p) + size q) by (subst Y; split; nra).
    pose proof (round_near Y). lra. }
  split; [|split; [|split; [|split]]]; try assumption.
  - rewrite Ha. split; nra.
  - now split.
  - apply isOffCanvas_inside; rewrite Hc; split; lra.
Qed.

End Birth.

(** The theorem at a particle initialised from the example settings. *)
Lemma init_well_formed_witness :
  let q := fst (@init approx_trig (example_particle (example_settings false 5 1))
                  (constant_rng (3 # 4))) in
  0 <= alpha q <= 1 /\ isOffCanvas q = false.
Proof.
  pose proof (@init_well_formed approx_trig
    (example_particle (example_settings false 5 1)) (constant_rng (3 # 4))) as H.
  cbv zeta in H.
  destruct H as (Ha & _ & Hon & _).
  - apply unit_draws_constant. split; [discriminate | reflexivity].
  - split; discriminate.
  - discriminate.
  - discriminate.
  - discriminate.
  - split; [exact Ha | exact Hon].
Defined.

(** * A particle at rest *)

#[local] Instance Qltb_proper : Proper (Qeq ==> Qeq ==> eq) Qltb.
Proof. intros a b Hab c d Hcd. unfold Qltb. now rewrite Hab, Hcd. Qed.

Lemma isOffCanvas_ext (p q : Sparticle) :
  canvas q = canvas p -> size q = size p -> px q == px p -> py q == py p ->
  isOffCanvas q = isOffCanvas p.
Proof.
  intros Hc Hs Hx Hy. unfold isOffCanvas, Qgtb.
  now rewrite Hc, Hs, Hx, Hy.
Qed.

Section Rest.
Context {T : Trig}.

(** With a speed of 0 the move of an on-canvas particle adds the velocity
    and nothing else: there is no drift without speed. *)
Lemma move_without_speed (p : Sparticle) (g : Rng) :
  Settings.speed (settings p) == 0 ->
  isOffCanvas p = false ->
  let q := fst (updatePosition p g) in
  px q = px p + dx p /\ py q = py p + dy p
  /\ size q = size p /\ dx q = dx p /\ dy q = dy p.
Proof.
  intros Hsp Hon. cbv zeta. unfold updatePosition. rewrite Hon. clear Hon.
  apply truthy_zero in Hsp.
  destruct p; cbn in *. unfold updateRotation, updateDrift, mret, Rand_ret; cbn.
  rewrite Hsp, andb_false_r. cbn. case_ifs; repeat split.
Qed.

Lemma rest_step (p : Sparticle) (g : Rng) :
  Settings.speed (settings p) == 0 ->
  dx p == 0 -> dy p == 0 ->
  isOffCanvas p = false ->
  let q := fst (update p g) in
  snd (update p g) = g
  /\ settings q = settings p /\ dx q = dx p /\ dy q = dy p
  /\ px q == px p /\ py q == py p
  /\ isOffCanvas q = false.
Proof.
  intros Hsp Hdx Hdy Hon. cbv zeta.
  pose proof (settings_update p g) as Hset.
  rewrite update_unfold in *. cbn [fst snd] in *.
  set (p0 := set_frame (frame p + 1) p) in *.
  assert (settings p0 = settings p /\ isOffCanvas p0 = isOffCanvas p
          /\ px p0 = px p /\ py p0 = py p /\ dx p0 = dx p /\ dy p0 = dy p
          /\ size p0 = size p /\ canvas p0 = canvas p)
    as (Hs0 & Hoff0 & Hx0 & Hy0 & Hdx0 & Hdy0 & Hsz0 & Hc0)
    by (subst p0; destruct p; repeat split).
  rewrite <- Hoff0 in Hon. rewrite <- Hs0 in Hsp.
  destruct (move_without_speed p0 g Hsp Hon) as (Hx & Hy & Hsz & Hvx & Hvy).
  destruct (move_keeps p0 g Hon) as (Hc & _ & _ & _ & _ & _ & _ & _ & _ & Hg).
  destruct (updateAlpha_keeps (fst (updatePosition p0 g)))
    as (_ & Hsz' & Hdx' & Hdy' & _ & _ & _ & Hx' & Hy' & _ & Hc').
  set (q := updateAlpha (fst (updatePosition p0 g))) in *.
  assert (px q == px p) as Hpx by (rewrite Hx', Hx, Hx0, Hdx0, Hdx; ring).
  assert (py q == py p) as Hpy by (rewrite Hy', Hy, Hy0, Hdy0, Hdy; ring).
  repeat split; try assumption.
  - congruence.
  - congruence.
  - rewrite <- Hon, Hoff0. apply isOffCanvas_ext; congruence.
Qed.

(** X11. A particle at rest stays where it is. With a speed of 0, a
    velocity of (0, 0) and a position on canvas, after any number of
    [update] calls the particle is at the position it started from, and
    nothing has been drawn from the random source: it is never recycled. *)
Theorem at_rest_forever (n : nat) (p : Sparticle) (g : Rng) :
  Settings.speed (settings p) == 0 ->
  dx p == 0 -> dy p == 0 ->
  isOffCanvas p = false ->
  px (fst (update_n n p g)) == px p
  /\ py (fst (update_n n p g)) == py p
  /\ snd (update_n n p g) = g.
Proof.
  revert p g. induction n as [|n IH]; intros p g Hsp Hdx Hdy Hon.
  - now repeat split.
  - cbn. unfold mbind, Rand_bind.
    destruct (rest_step p g Hsp Hdx Hdy Hon) as (Hg & Hs & Hvx & Hvy & Hx & Hy & Hoff).
    destruct (update p g) as [q g']. cbn in *. subst g'.
    destruct (IH q g) as (Hx' & Hy' & Hg').
    + now rewrite Hs.
    + now rewrite Hvx.
    + now rewrite Hvy.
    + assumption.
    + repeat split; [now rewrite Hx' | now rewrite Hy' | assumption].
Qed.

End Rest.

(** The theorem at the example particle, at rest at (50, 50), after a
    thousand frames. *)
Lemma at_rest_forever_witness :
  let p := example_particle (example_settings false 0 1) in
  px (fst (@update_n approx_trig 1000 p (constant_rng (3 # 4)))) == 50.
Proof.
  refine (proj1 (@at_rest_forever approx_trig 1000
    (example_particle (example_settings false 0 1)) (constant_rng (3 # 4)) _ _ _ _)).
  - reflexivity.
  - reflexivity.
  - reflexivity.
  - reflexivity.
Defined.

(** X12. Without variance the velocity is not random. With a per-axis
    variance of 0 or less, [getDeltaX] and [getDeltaY] draw nothing from
    the random source and return the direction's component times the base
    speed; if moreover the configured speed is 0, both components are 0. *)
Theorem velocity_without_variance `{Trig} (this : Sparticle) (g : Rng) :
  let s := settings this in
  let u := cartesian (Settings.direction s) in
  (Settings.xVariance s <= 0 ->
     getDeltaX this g = (fst u * getDelta this + 0, g)
     /\ (Settings.speed s == 0 -> fst (getDeltaX this g) == 0))
  /\ (Settings.yVariance s <= 0 ->
     getDeltaY this g = (snd u * getDelta this + 0, g)
     /\ (Settings.speed s == 0 -> fst (getDeltaY this g) == 0)).
Proof.
  intros s u.
  assert (Settings.speed s == 0 -> getDelta this == 0) as Hzero.
  { intros H0. unfold getDelta. fold s. apply truthy_zero in H0 as Ht.
    rewrite Ht. cbn. rewrite H0. ring. }
  split; intros Hv; apply Qgtb_le in Hv.
  - assert (getDeltaX this g = (fst u * getDelta this + 0, g)) as Hx.
    { unfold getDeltaX, getDeltaVariance, mbind, mret, Rand_bind, Rand_ret.
      fold s. now rewrite Hv. }
    split; [exact Hx|]. intros H0. rewrite Hx. cbn [fst].
    rewrite (Hzero H0). ring.
  - assert (getDeltaY this g = (snd u * getDelta this + 0, g)) as Hy.
    { unfold getDeltaY, getDeltaVariance, mbind, mret, Rand_bind, Rand_ret.
      fold s. now rewrite Hv. }
    split; [exact Hy|]. intros H0. rewrite Hy. cbn [fst].
    rewrite (Hzero H0). ring.
Qed.

(** The theorem at speed 0 and variances 0. *)
Lemma velocity_without_variance_witness :
  let s := {|
    Settings.minAlpha := 1; Settings.maxAlpha := 1; Settings.alphaSpeed := 1;
    Settings.alphaVariance := 1; Settings.twinkle := false;
    Settings.minSize := 10; Settings.maxSize := 10; Settings.speed := 0;
    Settings.parallax := 0; Settings.direction := 180;
    Settings.xVariance := 0; Settings.yVariance := 0; Settings.drift := 0;
    Settings.rotate := false; Settings.rotation := 0;
    Settings.color := NotArray; Settings.shape := NotArray;
    Settings.composition := "screen" |} in
  fst (@getDeltaX approx_trig (example_particle s) (constant_rng (3 # 4))) == 0.
Proof.
  cbv zeta.
  refine (proj2 (proj1 (@velocity_without_variance approx_trig
    (example_particle _) (constant_rng (3 # 4))) _) _).
  - discriminate.
  - reflexivity.
Defined.

(** * Further properties of the render step *)

(** X13. [renderRotate] rotates about the particle's own centre, by the
    particle's rotation. With rotation switched on, the transform it
    leaves takes the point at the offset (x, y) from the centre to where
    the transform it found takes the point at the offset
    (cos r * x - sin r * y, sin r * x + cos r * y) from the centre, [r]
    being the rotation of the particle; the centre itself stays in place.
    Alpha, composite mode and what has been drawn are as before. With
    rotation switched off the context is returned as it is. *)
Theorem renderRotate_about_centre `{Trig} (this : Sparticle) (ctx : Context2D)
    (x y : Q) :
  let cx := px this + size this / 2 in
  let cy := py this + size this / 2 in
  let r := rotation this in
  let ctx' := renderRotate this ctx in
  (Settings.rotate (settings this) = true ->
     fst (apply_matrix (transform ctx') (cx + x) (cy + y))
     == fst (apply_matrix (transform ctx)
               (cx + (Math_cos r * x - Math_sin r * y))
               (cy + (Math_sin r * x + Math_cos r * y)))
     /\ snd (apply_matrix (transform ctx') (cx + x) (cy + y))
        == snd (apply_matrix (transform ctx)
                  (cx + (Math_cos r * x - Math_sin r * y))
                  (cy + (Math_sin r * x + Math_cos r * y))))
  /\ globalAlpha ctx' = globalAlpha ctx
  /\ globalCompositeOperation ctx' = globalCompositeOperation ctx
  /\ drawn ctx' = drawn ctx
  /\ (Settings.rotate (settings this) = false -> ctx' = ctx).
Proof.
  intros cx cy r ctx'. subst ctx'. unfold renderRotate.
  destruct (Settings.rotate (settings this)).
  - unfold ctx_translate, ctx_rotate, ctx_transform, ctx_setTransform,
      compose, apply_matrix; cbn. fold cx cy r.
    split; [intros _; split; ring|]. repeat split. discriminate.
  - split; [discriminate|]. repeat split.
Qed.

(** The theorem at a particle of size 10 at (50, 50) turned by the angle 1,
    for the point one unit to the right of its centre (55, 55): with the
    stand-in cosine 1/2 and sine 5/6 of that angle it goes to
    (55 + 1/2, 55 + 5/6). *)
Lemma renderRotate_about_centre_witness :
  let ctx' := @renderRotate approx_trig turned_particle fresh_context in
  fst (apply_matrix (transform ctx') (50 + 10 / 2 + 1) (50 + 10 / 2 + 0))
  == 55 + 1 / 2
  /\ snd (apply_matrix (transform ctx') (50 + 10 / 2 + 1) (50 + 10 / 2 + 0))
     == 55 + 5 / 6.
Proof.
  cbv zeta.
  destruct (proj1 (@renderRotate_about_centre approx_trig
                     turned_particle fresh_context 1 0) eq_refl) as [Hx Hy].
  split.
  - etransitivity; [exact Hx | reflexivity].
  - etransitivity; [exact Hy | reflexivity].
Defined.

Section RenderMore.
Context {T : Trig}.


(** X15. The bitmap lands on the particle. When [render] returns for a
    particle of a size other than 0, it has issued one draw call, of the
    whole bitmap, and under the transform in force at the call the
    destination rectangle is the square of the particle's size at the
    particle's position, as seen through the transform [renderRotate]
    left: its corner goes where that transform takes (px, py) and the
    opposite corner where it takes (px + size, py + size). *)
Theorem render_draws_on_particle (this q : Sparticle)
    (images : gmap string (gmap string Canvas)) (ctx ctx' : Context2D) :
  render this images ctx = (Ok q, ctx') ->
  ~ size this == 0 ->
  exists call x y w,
    drawn ctx' = drawn ctx ++ [call]
    /\ source call = (0, 0, width (bitmap call), width (bitmap call))
    /\ destination call = (x, y, w, w)
    /\ let m := with_transform call in
       let r := transform (renderRotate this ctx) in
       fst (apply_matrix m x y) == fst (apply_matrix r (px this) (py this))
       /\ snd (apply_matrix m x y) == snd (apply_matrix r (px this) (py this))
       /\ fst (apply_matrix m (x + w) (y + w))
          == fst (apply_matrix r (px this + size this) (py this + size this))
       /\ snd (apply_matrix m (x + w) (y + w))
          == snd (apply_matrix r (px this + size this) (py this + size this)).
Proof.
  unfold render.
  destruct (images !! key (fillColor this)) as [byShape|]; [|discriminate].
  destruct (byShape !! key (shape this)) as [bmp|]; [|discriminate].
  intros Hr Hs. revert Hr.
  assert (Qeq_bool (size this) 0 = false) as Hs'
    by (apply truthy_nonzero in Hs; unfold truthy in Hs;
        now apply negb_true_iff in Hs).
  destruct (Qeq_bool (width bmp) 0) eqn:Ew.
  - unfold js_div, ctx_drawImage. rewrite Ew, Hs'. cbn. discriminate.
  - assert (~ size this / width bmp == 0) as Hsc.
    { apply Qeq_bool_neq in Ew. intros Hz. apply Hs.
      now apply Qdiv_zero with (b := width bmp). }
    assert (Qeq_bool (size this / width bmp) 0 = false) as Hsc'.
    { apply not_true_iff_false. intros Hz. apply Hsc. now apply Qeq_bool_iff. }
    unfold js_div. rewrite Ew, Hsc'.
    pose proof (Qeq_bool_neq _ _ Ew) as Hw.
    unfold ctx_drawImage, ctx_scale.
    destruct (Qeq_bool (width bmp) 0 || Qeq_bool (height bmp) 0); [discriminate|].
    destruct (renderRotate_keeps this ctx) as (_ & _ & Hd).
    destruct (negb _); cbn; intros [= <- <-]; cbn; rewrite Hd;
      (do 4 eexists; split; [reflexivity|]; split; [reflexivity|];
       split; [reflexivity|]);
      unfold apply_matrix, compose; cbn;
      set (r := transform (renderRotate this ctx));
      repeat split; field; repeat split; assumption.
Qed.

End RenderMore.


(** The theorem X15 at the example particle: a bitmap of 20 drawn at
    (100, 100) under a scale of one half lands on (50, 50) with size 10. *)
Lemma render_draws_on_particle_witness :
  exists call x y w,
    drawn (snd after_example_render) = drawn fresh_context ++ [call]
    /\ destination call = (x, y, w, w)
    /\ fst (apply_matrix (with_transform call) x y) == 50
    /\ fst (apply_matrix (with_transform call) (x + w) (y + w)) == 50 + 10.
Proof.
  destruct (@render_draws_on_particle approx_trig
    (example_particle (example_settings false 5 1))
    (example_particle (example_settings false 5 1))
    example_cache fresh_context (snd after_example_render) eq_refl)
    as (call & x & y & w & Hd & _ & Hdest & Hx & _ & Hx' & _).
  - discriminate.
  - exists call, x, y, w. repeat split; assumption.
Defined.

(** * The length of a twinkle phase *)

Lemma iter_updateAlpha_settings (k : nat) (p : Sparticle) :
  settings (Nat.iter k updateAlpha p) = settings p.
Proof.
  induction k as [|k IH]; [reflexivity|].
  now rewrite Nat.iter_succ, settings_updateAlpha.
Qed.

Lemma inject_succ (n : nat) :
  inject_Z (Z.of_nat (S n)) == inject_Z (Z.of_nat n) + 1.
Proof. rewrite Nat2Z.inj_succ, <- Z.add_1_r, inject_Z_plus. reflexivity. Qed.

(** While the machine stays in one sub-state, alpha moves on a line. *)
Lemma twinkle_phase_line (p : Sparticle) (b : bool) (n : nat) :
  let s := settings p in
  let step := if b then 0.02 * Settings.alphaSpeed s else - twinkle_tick p in
  Settings.twinkle s = true ->
  0 < Settings.alphaSpeed s ->
  Settings.minAlpha s <= alpha p <= Settings.maxAlpha s ->
  (b = false -> ~ da p == 0) ->
  (forall k, (k <= n)%nat -> resettingTwinkle (Nat.iter k updateAlpha p) = b) ->
  alpha (Nat.iter n updateAlpha p) == alpha p + inject_Z (Z.of_nat n) * step
  /\ forall k, (k < n)%nat ->
       Settings.minAlpha s <= alpha (Nat.iter k updateAlpha p) <= Settings.maxAlpha s.
Proof.
  intros s step Ht Hs Hal Hda.
  assert (if b then 0 < step else step < 0) as Hstep.
  { subst step. destruct b; [lra|].
    pose proof (twinkle_tick_pos p Hs (Hda eq_refl)). lra. }
  induction n as [|n IH]; intros Hres.
  - split; [cbn; ring | intros k Hk; lia].
  - destruct IH as [Hline Hin]; [intros k Hk; apply Hres; lia|].
    set (pn := Nat.iter n updateAlpha p) in *.
    pose proof (iter_updateAlpha_settings n p) as Hsn. fold pn s in Hsn.
    assert (da pn = da p) as Hdn.
    { subst pn. clear -Ht Hs. induction n as [|n IH]; [reflexivity|].
      rewrite Nat.iter_succ, <- IH.
      apply alpha_updateAlpha_twinkle; now rewrite iter_updateAlpha_settings. }
    assert (twinkle_tick pn = twinkle_tick p) as Htk
      by (unfold twinkle_tick; now rewrite Hsn, Hdn).
    assert (0 < Settings.alphaSpeed (settings pn)) as Hs' by now rewrite Hsn.
    assert (Settings.twinkle (settings pn) = true) as Ht' by now rewrite Hsn.
    destruct (alpha_updateAlpha_twinkle pn Hs' Ht') as (Ha & Hr & _).
    assert (resettingTwinkle pn = b) as Hbn by (apply Hres; lia).
    assert (resettingTwinkle (updateAlpha pn) = b) as Hbn'
      by exact (Hres (S n) (le_n _)).
    assert (Settings.minAlpha s <= alpha pn <= Settings.maxAlpha s) as Hpn.
    { destruct (updateTwinkle_clamps pn) as [Hunder Hover].
      rewrite Hsn in Hunder, Hover.
      assert (0 <= inject_Z (Z.of_nat n)) as Hn0
        by (change 0 with (inject_Z 0); rewrite <- Zle_Qle; lia).
      destruct (Qlt_le_dec (alpha pn) (Settings.minAlpha s)) as [Hlo|Hlo].
      - destruct (Hunder Hlo) as [_ Hflag]. rewrite <- Hr, Hbn' in Hflag.
        rewrite Hflag in Hstep. exfalso.
        assert (0 <= inject_Z (Z.of_nat n) * step) by nra. lra.
      - destruct (Qlt_le_dec (Settings.maxAlpha s) (alpha pn)) as [Hhi|Hhi];
          [|now split].
        destruct (Hover Hlo Hhi) as [_ Hflag]. rewrite <- Hr, Hbn' in Hflag.
        rewrite Hflag in Hstep. exfalso.
        assert (inject_Z (Z.of_nat n) * step <= 0) by nra. lra. }
    split.
    + rewrite Nat.iter_succ. fold pn. rewrite Ha.
      destruct (updateTwinkle_inside pn) as [Hstepn _]; [now rewrite Hsn|].
      rewrite Hstepn, Hbn, Hsn, Htk, inject_succ. subst step.
      destruct b; rewrite Hline; ring.
    + intros k Hk. destruct (Nat.eq_dec k n) as [->|Hne]; [exact Hpn|].
      apply Hin. lia.
Qed.

(** X16. A twinkle phase has a fixed slope and a bounded length. In twinkle
    mode with [alphaSpeed > 0], from an alpha in range: as long as the
    machine has stayed in the resetting sub-state for [n] steps, alpha has
    risen by exactly [n x 0.02 x alphaSpeed], and all but the last of these
    alphas were at most maxAlpha, so [n] is at most
    [(maxAlpha - alpha) / (0.02 x alphaSpeed) + 1]; as long as it has stayed
    in the decaying sub-state, with a non-zero alpha delta, alpha has
    fallen by exactly [n] decay steps, and [n] is at most
    [(alpha - minAlpha) / step + 1]. *)
Theorem twinkle_phase_length (p : Sparticle) (n : nat) :
  let s := settings p in
  let q := Nat.iter (S n) updateAlpha p in
  let N := inject_Z (Z.of_nat n) in
  Settings.twinkle s = true ->
  0 < Settings.alphaSpeed s ->
  Settings.minAlpha s <= alpha p <= Settings.maxAlpha s ->
  ((forall k, (k <= S n)%nat -> resettingTwinkle (Nat.iter k updateAlpha p) = true) ->
     alpha q == alpha p + (N + 1) * (0.02 * Settings.alphaSpeed s)
     /\ alpha p + N * (0.02 * Settings.alphaSpeed s) <= Settings.maxAlpha s)
  /\ ((forall k, (k <= S n)%nat -> resettingTwinkle (Nat.iter k updateAlpha p) = false) ->
      ~ da p == 0 ->
      alpha q == alpha p - (N + 1) * twinkle_tick p
      /\ Settings.minAlpha s <= alpha p - N * twinkle_tick p).
Proof.
  intros s q N Ht Hs Hal. subst q N. split.
  - intros Hres.
    destruct (twinkle_phase_line p true (S n) Ht Hs Hal ltac:(discriminate) Hres)
      as [Hline Hin].
    destruct (twinkle_phase_line p true n Ht Hs Hal ltac:(discriminate))
      as [Hline' _]; [intros k Hk; apply Hres; lia|].
    cbv zeta in *. rewrite inject_succ in Hline. split; [exact Hline|].
    destruct (Hin n ltac:(lia)) as [_ Hmax]. rewrite Hline' in Hmax. exact Hmax.
  - intros Hres Hda.
    destruct (twinkle_phase_line p false (S n) Ht Hs Hal (fun _ => Hda) Hres)
      as [Hline Hin].
    destruct (twinkle_phase_line p false n Ht Hs Hal (fun _ => Hda))
      as [Hline' _]; [intros k Hk; apply Hres; lia|].
    cbv zeta in *. rewrite inject_succ in Hline. split.
    + rewrite Hline. ring.
    + destruct (Hin n ltac:(lia)) as [Hmin _]. rewrite Hline' in Hmin.
      set (N := inject_Z (Z.of_nat n)) in *.
      assert (N * - twinkle_tick p == - (N * twinkle_tick p)) as E by ring.
      rewrite E in Hmin. exact Hmin.
Qed.

(** The theorem at a decaying particle: two steps from alpha = 1/2. *)
Lemma twinkle_phase_length_witness :
  let p := example_particle (example_settings true 0 1) in
  alpha (Nat.iter 2 updateAlpha p) == 1 / 2 - (1 + 1) * twinkle_tick p.
Proof.
  refine (proj1 (proj2 (twinkle_phase_length
    (example_particle (example_settings true 0 1)) 1 eq_refl eq_refl _) _ _)).
  - split; discriminate.
  - intros k Hk.
    destruct k as [|[|[|k]]]; [reflexivity | reflexivity | reflexivity | lia].
  - discriminate.
Defined.

(** * Rotation *)

Section Rotation.
Context {T : Trig}.

Lemma updateDrift_keeps (p : Sparticle) :
  settings (updateDrift p) = settings p
  /\ rotation (updateDrift p) = rotation p
  /\ dr (updateDrift p) = dr p.
Proof.
  destruct p. unfold updateDrift; cbn. case_ifs; repeat split.
Qed.

Lemma updatePosition_rotation (p : Sparticle) (g : Rng) :
  let s := settings p in
  rotation (fst (updatePosition p g)) =
  if isOffCanvas p then rotation p
  else if Settings.rotate s && truthy (Settings.rotation s)
       then rotation p + dr p
       else rotation p.
Proof.
  cbv zeta. destruct (isOffCanvas p) eqn:Hoff.
  - unfold updatePosition. rewrite Hoff.
    destruct (reset_after_setup p g) as (_ & _ & _ & _ & _ & _ & -> & _).
    now destruct (setup_keeps p g) as (_ & _ & _ & _ & _ & _ & _ & -> & _).
  - unfold updatePosition. rewrite Hoff. clear Hoff.
    unfold mret, Rand_ret. cbn [fst]. unfold updateRotation.
    destruct (updateDrift_keeps
                (set_py (py (set_px (px p + dx p) p) + dy (set_px (px p + dx p) p))
                   (set_px (px p + dx p) p))) as (Hs & Hr & Hd).
    rewrite Hs.
    assert (settings (set_py (py (set_px (px p + dx p) p) + dy (set_px (px p + dx p) p))
                        (set_px (px p + dx p) p)) = settings p) as -> by now destruct p.
    destruct (Settings.rotate (settings p) && truthy (Settings.rotation (settings p)));
      [|rewrite Hr; now destruct p].
    transitivity (rotation (updateDrift
                    (set_py (py (set_px (px p + dx p) p) + dy (set_px (px p + dx p) p))
                       (set_px (px p + dx p) p)))
                  + dr (updateDrift
                    (set_py (py (set_px (px p + dx p) p) + dy (set_px (px p + dx p) p))
                       (set_px (px p + dx p) p)))).
    + now destruct (updateDrift _).
    + rewrite Hr, Hd. now destruct p.
Qed.

Lemma update_rotation (p : Sparticle) (g : Rng) :
  let s := settings p in
  rotation (fst (update p g)) =
  if isOffCanvas p then rotation p
  else if Settings.rotate s && truthy (Settings.rotation s)
       then rotation p + dr p
       else rotation p.
Proof.
  cbv zeta. rewrite update_unfold. cbn [fst].
  destruct (updateAlpha_keeps (fst (updatePosition (set_frame (frame p + 1) p) g)))
    as (_ & _ & _ & _ & _ & _ & _ & _ & _ & -> & _).
  rewrite updatePosition_rotation. now destruct p.
Qed.

(** X17. Rotation accumulates while the particle is on canvas and is left
    alone by a recycle. With rotation switched on and a rotation rate other
    than 0, an [update] of an on-canvas particle adds the rotation delta to
    the angle; an [update] that recycles keeps the angle. With rotation
    switched off, or a rate of 0, the angle is the same after any number of
    [update] calls. *)
Theorem rotation_accumulates (n : nat) (p : Sparticle) (g : Rng) :
  let s := settings p in
  (Settings.rotate s = true -> ~ Settings.rotation s == 0 ->
     isOffCanvas p = false ->
     rotation (fst (update p g)) = rotation p + dr p)
  /\ (isOffCanvas p = true -> rotation (fst (update p g)) = rotation p)
  /\ (Settings.rotate s = false \/ Settings.rotation s == 0 ->
      rotation (fst (update_n n p g)) = rotation p).
Proof.
  cbv zeta. split; [|split].
  - intros Hr Hrate Hon. rewrite update_rotation, Hon, Hr.
    apply truthy_nonzero in Hrate. now rewrite Hrate.
  - intros Hoff. now rewrite update_rotation, Hoff.
  - intros Hno.
    assert (forall q, settings q = settings p ->
              Settings.rotate (settings q) && truthy (Settings.rotation (settings q))
              = false) as Hcond.
    { intros q ->. destruct Hno as [-> | H0]; [reflexivity|].
      apply truthy_zero in H0. rewrite H0. apply andb_false_r. }
    assert (forall k q g', settings q = settings p ->
              rotation (fst (update_n k q g')) = rotation q) as Hall.
    { induction k as [|k IH]; intros q g' Hq; [reflexivity|].
      cbn. unfold mbind, Rand_bind.
      pose proof (update_rotation q g') as Hrot. cbv zeta in Hrot.
      rewrite (Hcond q Hq) in Hrot.
      pose proof (settings_update q g') as Hsq.
      destruct (update q g') as [q' g'']. cbn in *.
      rewrite IH by congruence. rewrite Hrot. now destruct (isOffCanvas q). }
    now apply Hall.
Qed.

End Rotation.

(** The theorem with rotation switched off, after a hundred frames. *)
Lemma rotation_accumulates_witness :
  let p := example_particle (example_settings false 5 1) in
  rotation (fst (@update_n approx_trig 100 p (constant_rng (3 # 4)))) = 0.
Proof.
  refine (proj2 (proj2 (@rotation_accumulates approx_trig 100
    (example_particle (example_settings false 5 1)) (constant_rng (3 # 4)))) _).
  left. reflexivity.
Defined.
